(** * raggio: a shallow embedding of the software rasterizer

    This development models [src/lib.rs] ([Pixel], [TriangleVertices]),
    [src/math.rs] ([min], [max], [Vector2], [Rectangle2D], [Triangle2D]),
    [src/shader.rs] (the two shader traits), [src/swap_chain.rs]
    ([Extent], [SwapChain] and its operations), the presentation code of
    [src/platform/win32.rs] ([Surface::present], with the GDI calls as
    parameters) and the event handlers of [examples/simple.rs].

    Modelling choices:
    - [u8] channels, [i32] pixel coordinates and [usize] sizes are [Z] and [N];
      the [i32] arithmetic of [Triangle2D::area] and [hit_test] is given twice:
      exactly over [Z] ([area], [hit_test]) and with the overflow checks of
      Rust's default (debug) profile ([area_i32], [hit_test_i32], [None] is a
      panic). [draw_rasterized] uses the checked version, as the binary does.
    - [f32] is an abstract interface ([F32Ops]) with the operations that
      [vertex_to_pixel_position] performs; [QF32] is an exact rational
      instance, used only on inputs that [f32] represents exactly.
    - [VertexShader2D::run] takes [&self] and a position: a function.
      [FragmentShader2D::run] takes only [&self]; since a shader may count its
      calls through interior mutability, it is a state transformer
      [S -> Pixel * S].
    - [Vec<Pixel>] is a stdpp list; [buffer[i] = c] panics out of range, so
      [set_pixel] returns [None] there. *)

From Stdlib Require Import ZArith QArith Qround Qabs Lia Lqa.
From stdpp Require Import base list.

Open Scope Z_scope.

(* ------------------------------------------------------------------ *)
(** ** lib.rs: [Pixel] *)

Record Pixel := mkPixel { red : Z; green : Z; blue : Z; alpha : Z }.

(** [Pixel::new(red, green, blue, alpha)] builds [Self { alpha, red, green, blue }]
    (named fields, so the order of the initialiser is irrelevant). *)
Definition Pixel_new (r g b a : Z) : Pixel :=
  {| alpha := a; red := r; green := g; blue := b |}.

Definition BLACK : Pixel := Pixel_new 0x00 0x00 0x00 0xF.
Definition RED : Pixel := Pixel_new 0xFF 0xFF 0xFF 0xFF.

#[global] Instance Pixel_eq_dec : EqDecision Pixel.
Proof. intros [] []; unfold Decision; decide equality; apply Z.eq_dec. Defined.

(* ------------------------------------------------------------------ *)
(** ** math.rs *)

(** [min] and [max]: [if lhs < rhs { lhs } else { rhs }]. *)
Definition min (lhs rhs : Z) : Z := if lhs <? rhs then lhs else rhs.
Definition max (lhs rhs : Z) : Z := if rhs <? lhs then lhs else rhs.

Record Vector2 (T : Type) := Vector2_new { x : T; y : T }.
Arguments Vector2_new {T} _ _.
Arguments x {T} _.
Arguments y {T} _.

Record Rectangle2D := {
  lefttopmost : Vector2 Z;
  rightbottommost : Vector2 Z;
}.

(** [Range<i32>]: [start..end] yields [start, start+1, ..., end-1]. *)
Definition Range (lo hi : Z) : list Z :=
  map (fun i => lo + Z.of_nat i) (seq 0 (Z.to_nat (hi - lo))).

Definition x_range (r : Rectangle2D) : list Z :=
  Range (x (lefttopmost r)) (x (rightbottommost r)).
Definition y_range (r : Rectangle2D) : list Z :=
  Range (y (lefttopmost r)) (y (rightbottommost r)).

(** [Triangle2D(pub Vector2<T>, pub Vector2<T>, pub Vector2<T>)] *)
Record Triangle2D := Triangle2D_new { _0 : Vector2 Z; _1 : Vector2 Z; _2 : Vector2 Z }.

Definition area (t : Triangle2D) : Z :=
  Z.abs ((x (_1 t) - x (_0 t)) * (y (_2 t) - y (_0 t))
         - (x (_2 t) - x (_0 t)) * (y (_1 t) - y (_0 t))).

Definition max_x (t : Triangle2D) : Z := max (x (_0 t)) (max (x (_1 t)) (x (_2 t))).
Definition max_y (t : Triangle2D) : Z := max (y (_0 t)) (max (y (_1 t)) (y (_2 t))).
Definition min_x (t : Triangle2D) : Z := min (x (_0 t)) (min (x (_1 t)) (x (_2 t))).
Definition min_y (t : Triangle2D) : Z := min (y (_0 t)) (min (y (_1 t)) (y (_2 t))).

Definition encapsulating_rectangle (t : Triangle2D) : Rectangle2D :=
  {| lefttopmost := Vector2_new (min_x t) (min_y t);
     rightbottommost := Vector2_new (max_x t) (max_y t) |}.

Definition hit_test (t : Triangle2D) (point : Vector2 Z) : bool :=
  let a := area t in
  let a1 := area (Triangle2D_new point (_0 t) (_1 t)) in
  let a2 := area (Triangle2D_new point (_1 t) (_2 t)) in
  let a3 := area (Triangle2D_new point (_2 t) (_0 t)) in
  a1 + a2 + a3 =? a.

(** The same two functions at [T = i32] with overflow checks: every
    [-], [*], [+] and [abs] panics when its result leaves the [i32] range. *)
Definition i32_min : Z := - 2 ^ 31.
Definition i32_max : Z := 2 ^ 31 - 1.

Definition checked (v : Z) : option Z :=
  if (i32_min <=? v) && (v <=? i32_max) then Some v else None.

Definition area_i32 (t : Triangle2D) : option Z :=
  d1 ← checked (x (_1 t) - x (_0 t));
  d2 ← checked (y (_2 t) - y (_0 t));
  d3 ← checked (x (_2 t) - x (_0 t));
  d4 ← checked (y (_1 t) - y (_0 t));
  m1 ← checked (d1 * d2);
  m2 ← checked (d3 * d4);
  s ← checked (m1 - m2);
  checked (Z.abs s).

Definition hit_test_i32 (t : Triangle2D) (point : Vector2 Z) : option bool :=
  a ← area_i32 t;
  a1 ← area_i32 (Triangle2D_new point (_0 t) (_1 t));
  a2 ← area_i32 (Triangle2D_new point (_1 t) (_2 t));
  a3 ← area_i32 (Triangle2D_new point (_2 t) (_0 t));
  s ← checked (a1 + a2);
  s' ← checked (s + a3);
  Some (s' =? a).

(* ------------------------------------------------------------------ *)
(** ** The [f32] operations used by [vertex_to_pixel_position] *)

Class F32Ops (F : Type) := {
  f_add : F -> F -> F;
  f_div : F -> F -> F;
  f_mul : F -> F -> F;
  f_one : F;                (** [1.0] *)
  f_two : F;                (** [2.0] *)
  f_of_usize : N -> F;      (** [usize as f32] *)
  f_round : F -> F;         (** [f32::round] *)
  f_as_i32 : F -> Z;        (** [f32 as i32] *)
}.

(** [lib.rs]: [TriangleVertices { a, b, c }] of [Vector2f]. *)
Record TriangleVertices (F : Type) := TriangleVertices_new { a : Vector2 F; b : Vector2 F; c : Vector2 F }.
Arguments TriangleVertices_new {F} _ _ _.
Arguments a {F} _.
Arguments b {F} _.
Arguments c {F} _.

(* ------------------------------------------------------------------ *)
(** ** swap_chain.rs *)

Record Extent := { width : N; height : N }.

(** [winit::dpi::LogicalSize<u32>] *)
Record LogicalSize := { size_width : N; size_height : N }.

Record SwapChain := { extent : Extent; buffer : list Pixel }.

Definition usize_limit : N := 2 ^ 64.

(** [Vec::new()] then [vec.resize(width * height, color)]. *)
Definition create_pixel_buffer (w h : N) (color : Pixel) : list Pixel :=
  replicate (N.to_nat (w * h)) color.

Definition SwapChain_new (size : LogicalSize) : SwapChain :=
  {| extent := {| width := size_width size; height := size_height size |};
     buffer := create_pixel_buffer (size_width size) (size_height size) BLACK |}.

(** [self.buffer.fill(color)] *)
Definition clear (sc : SwapChain) (color : Pixel) : SwapChain :=
  {| extent := extent sc; buffer := map (fun _ => color) (buffer sc) |}.

Definition resize_with_clear_color (sc : SwapChain) (size : LogicalSize) (color : Pixel)
    : SwapChain :=
  {| extent := {| width := size_width size; height := size_height size |};
     buffer := create_pixel_buffer (size_width size) (size_height size) color |}.

(** [i32 as usize] (two's complement reinterpretation on a 64-bit target). *)
Definition i32_as_usize (v : Z) : N :=
  if v <? 0 then Z.to_N (v + 2 ^ 64) else Z.to_N v.

Definition is_point_inside (sc : SwapChain) (point : Vector2 Z) : bool :=
  (0 <=? x point) && (0 <=? y point)
  && (i32_as_usize (x point) <? width (extent sc))%N
  && (i32_as_usize (y point) <? height (extent sc))%N.

(** The row-major index [point.y * self.extent.width + point.x] (in [usize]). *)
Definition pixel_index (ext : Extent) (point : Vector2 Z) : nat :=
  N.to_nat (i32_as_usize (y point) * width ext + i32_as_usize (x point))%N.

(** [self.buffer[index] = color] panics when [index >= len]. Only called
    under [is_point_inside], where [index < width * height], so the [usize]
    arithmetic of the index cannot overflow and is not checked here. *)
Definition set_pixel (sc : SwapChain) (point : Vector2 Z) (color : Pixel) : option SwapChain :=
  let idx := pixel_index (extent sc) point in
  if (idx <? length (buffer sc))%nat
  then Some {| extent := extent sc; buffer := <[idx := color]> (buffer sc) |}
  else None.

Definition vertex_to_pixel_position `{F32Ops F} (sc : SwapChain) (vertex : Vector2 F)
    : Vector2 Z :=
  let px := f_as_i32 (f_round (f_mul (f_div (f_add (x vertex) f_one) f_two)
                                      (f_of_usize (width (extent sc))))) in
  let py := f_as_i32 (f_round (f_mul (f_div (f_add (y vertex) f_one) f_two)
                                      (f_of_usize (height (extent sc))))) in
  Vector2_new px py.

(** The candidate points of the nested loops
    [for y in rect.y_range() { for x in rect.x_range() { .. } }], in order. *)
Definition candidates (r : Rectangle2D) : list (Vector2 Z) :=
  flat_map (fun yy => map (fun xx => Vector2_new xx yy) (x_range r)) (y_range r).

Section Draw.

Context {S : Type} (fragment_run : S -> Pixel * S).

(** The body of the inner loop for one candidate point. *)
Definition raster_point (triangle : Triangle2D) (st : SwapChain * S) (point : Vector2 Z)
    : option (SwapChain * S) :=
  let '(sc, s) := st in
  match hit_test_i32 triangle point with
  | None => None
  | Some false => Some st
  | Some true =>
      if is_point_inside sc point then
        let '(color, s') := fragment_run s in
        match set_pixel sc point color with
        | Some sc' => Some (sc', s')
        | None => None
        end
      else Some st
  end.

Fixpoint raster_points (triangle : Triangle2D) (points : list (Vector2 Z))
    (st : SwapChain * S) : option (SwapChain * S) :=
  match points with
  | [] => Some st
  | p :: ps => st' ← raster_point triangle st p; raster_points triangle ps st'
  end.

(** Lines 64-77: the pixel-space triangle, its rectangle and the two loops. *)
Definition rasterize_triangle (triangle : Triangle2D) (st : SwapChain * S)
    : option (SwapChain * S) :=
  let enclosing_rect := encapsulating_rectangle triangle in
  raster_points triangle (candidates enclosing_rect) st.

Context `{F32Ops F} (vertex_run : Vector2 F -> Vector2 F).

(** The pixel-space triangle of one [vertex_triple] (lines 54-64). *)
Definition pixel_triangle (sc : SwapChain) (vertex_triple : TriangleVertices F) : Triangle2D :=
  let va := vertex_run (a vertex_triple) in
  let vb := vertex_run (b vertex_triple) in
  let vc := vertex_run (c vertex_triple) in
  Triangle2D_new (vertex_to_pixel_position sc va) (vertex_to_pixel_position sc vb)
                 (vertex_to_pixel_position sc vc).

Definition draw_triangle (st : SwapChain * S) (vertex_triple : TriangleVertices F)
    : option (SwapChain * S) :=
  rasterize_triangle (pixel_triangle (fst st) vertex_triple) st.

Fixpoint draw_rasterized_from (vertices : list (TriangleVertices F)) (st : SwapChain * S)
    : option (SwapChain * S) :=
  match vertices with
  | [] => Some st
  | vt :: vs => st' ← draw_triangle st vt; draw_rasterized_from vs st'
  end.

(** [SwapChain::draw_rasterized(&mut self, vertices, vertex_shader, fragment_shader)]:
    the new swap chain and the fragment shader's state, or [None] on a panic. *)
Definition draw_rasterized (sc : SwapChain) (vertices : list (TriangleVertices F)) (s : S)
    : option (SwapChain * S) :=
  draw_rasterized_from vertices (sc, s).

End Draw.

(* ------------------------------------------------------------------ *)
(** ** An exact instance of the [f32] interface

    Rationals with [f32::round] (half away from zero) and the saturating
    [as i32] cast (truncation toward zero, clamped to the [i32] range). It
    agrees with [f32] on the inputs used below, whose intermediate values
    are all small dyadic rationals, exactly representable in [f32]. *)

Definition Q_round (q : Q) : Q :=
  if Qle_bool 0 q then inject_Z (Qfloor (q + (1 # 2))%Q)
  else inject_Z (- Qfloor (- q + (1 # 2))%Q).

Definition Q_as_i32 (q : Q) : Z :=
  let t := if Qle_bool 0 q then Qfloor q else - Qfloor (- q)%Q in
  Z.max i32_min (Z.min i32_max t).

#[global] Instance QF32 : F32Ops Q := {|
  f_add := Qplus; f_div := Qdiv; f_mul := Qmult;
  f_one := 1%Q; f_two := 2%Q;
  f_of_usize n := inject_Z (Z.of_N n);
  f_round := Q_round; f_as_i32 := Q_as_i32 |}.

(** Shaders used in the concrete runs: the identity vertex shader, a constant
    fragment shader and one that also counts its invocations. *)
Definition identity_vertex_shader {F} (position : Vector2 F) : Vector2 F := position.
Definition constant_fragment (color : Pixel) (s : unit) : Pixel * unit := (color, s).
Definition counting_fragment (color : Pixel) (n : nat) : Pixel * nat := (color, S n).
Definition numbered_fragment (n : nat) : Pixel * nat := (Pixel_new (Z.of_nat n) 0 0 0xFF, S n).

(** Reading the pixel at [(px, py)] of the buffer. *)
Definition pixel_at (sc : SwapChain) (point : Vector2 Z) : option Pixel :=
  buffer sc !! pixel_index (extent sc) point.

Definition example_triangle : TriangleVertices Q :=
  TriangleVertices_new (Vector2_new 0%Q (-1 # 2)%Q) (Vector2_new (-1 # 2)%Q (1 # 2)%Q)
                       (Vector2_new (1 # 2)%Q (1 # 2)%Q).
Definition example_color : Pixel := Pixel_new 0x30 0xA7 0xF8 0xFF.

(* ------------------------------------------------------------------ *)
(** ** Notions used in the statements *)

(** The signed cross product that [area] takes the absolute value of. *)
Definition cross (t : Triangle2D) : Z :=
  (x (_1 t) - x (_0 t)) * (y (_2 t) - y (_0 t))
  - (x (_2 t) - x (_0 t)) * (y (_1 t) - y (_0 t)).

(** The geometric area by the shoelace formula, as a rational. *)
Definition geometric_area (t : Triangle2D) : Q :=
  (Qabs (inject_Z (x (_0 t) * (y (_1 t) - y (_2 t)) + x (_1 t) * (y (_2 t) - y (_0 t))
                   + x (_2 t) * (y (_0 t) - y (_1 t)))) / 2)%Q.

(** The three vertices lie on one line [p * x + q * y = r] (also when some
    or all of them coincide). *)
Definition collinear (t : Triangle2D) : Prop :=
  exists p q r : Z, (p <> 0 \/ q <> 0) /\
    p * x (_0 t) + q * y (_0 t) = r /\ p * x (_1 t) + q * y (_1 t) = r /\
    p * x (_2 t) + q * y (_2 t) = r.

(** [point] is in the closed triangle: a convex combination of the vertices,
    [point = (l0 * v0 + l1 * v1 + l2 * v2) / (l0 + l1 + l2)] with weights
    [l0, l1, l2 >= 0] not all zero. *)
Definition in_triangle (t : Triangle2D) (point : Vector2 Z) : Prop :=
  exists l0 l1 l2 : Z, 0 <= l0 /\ 0 <= l1 /\ 0 <= l2 /\ 0 < l0 + l1 + l2 /\
    (l0 + l1 + l2) * x point = l0 * x (_0 t) + l1 * x (_1 t) + l2 * x (_2 t) /\
    (l0 + l1 + l2) * y point = l0 * y (_0 t) + l1 * y (_1 t) + l2 * y (_2 t).

(** The sum [a1 + a2 + a3] that [hit_test] compares with [area]. *)
Definition sub_area_sum (t : Triangle2D) (point : Vector2 Z) : Z :=
  area (Triangle2D_new point (_0 t) (_1 t)) + area (Triangle2D_new point (_1 t) (_2 t))
  + area (Triangle2D_new point (_2 t) (_0 t)).

(** The [SwapChain] invariant: [buffer.len() == width * height]. *)
Definition wf (sc : SwapChain) : Prop :=
  length (buffer sc) = N.to_nat (width (extent sc) * height (extent sc)).

(** The buffer indices written by the pass of a pixel-space triangle over
    [points]: those of the points that pass [hit_test] and [is_point_inside]. *)
Definition written (sc : SwapChain) (t : Triangle2D) (points : list (Vector2 Z)) : list nat :=
  map (pixel_index (extent sc))
      (List.filter (fun q => hit_test t q && is_point_inside sc q) points).

(** Triangle [vt] covers [point]: its pass tests [point] and writes there. *)
Definition covers `{F32Ops F} (vertex_run : Vector2 F -> Vector2 F) (sc : SwapChain)
    (vt : TriangleVertices F) (point : Vector2 Z) : Prop :=
  let t := pixel_triangle vertex_run sc vt in
  In point (candidates (encapsulating_rectangle t)) /\
  hit_test t point = true /\ is_point_inside sc point = true.

(** Concrete inputs. [degenerate_triangle] maps to the pixel-space triangle
    (0,0), (1,1), (2,2) on a 4x4 swap chain; [huge_triangle] maps to
    (0,0), (50001,0), (0,50001) on a 2x2 swap chain. *)
Definition size4 : LogicalSize := {| size_width := 4; size_height := 4 |}.
Definition degenerate_triangle : TriangleVertices Q :=
  TriangleVertices_new (Vector2_new (-1)%Q (-1)%Q) (Vector2_new (-1 # 2)%Q (-1 # 2)%Q)
                       (Vector2_new 0%Q 0%Q).
Definition size2 : LogicalSize := {| size_width := 2; size_height := 2 |}.
Definition huge_triangle : TriangleVertices Q :=
  TriangleVertices_new (Vector2_new (-1)%Q (-1)%Q) (Vector2_new 50000%Q (-1)%Q)
                       (Vector2_new (-1)%Q 50000%Q).

(* ------------------------------------------------------------------ *)
(** ** math.rs: [Vector3] (an [f32] vector) *)

(** The [f32] subtraction that [Vector3::cross] uses besides [f_mul]. *)
Class F32Sub (F : Type) := f_sub : F -> F -> F.

#[global] Instance QF32Sub : F32Sub Q := Qminus.

Module Vector3.

Record Vector3 (F : Type) := Vector3_new { x : F; y : F; z : F }.
Arguments Vector3_new {F} _ _ _.
Arguments x {F} _.
Arguments y {F} _.
Arguments z {F} _.

(** [Vector3::cross(&self, other)]. *)
Definition cross `{F32Ops F} `{F32Sub F} (self other : Vector3 F) : Vector3 F :=
  Vector3_new (f_sub (f_mul (y self) (z other)) (f_mul (z self) (y other)))
              (f_sub (f_mul (z self) (x other)) (f_mul (x self) (z other)))
              (f_sub (f_mul (x self) (y other)) (f_mul (y self) (x other))).

(** [Vector3::xy(&self)]. *)
Definition xy {F} (self : Vector3 F) : Vector2 F := Vector2_new (x self) (y self).

(** [impl Mul<Vector3> for Vector3]: [self.cross(rhs)]. *)
Definition mul `{F32Ops F} `{F32Sub F} (self rhs : Vector3 F) : Vector3 F := cross self rhs.

(** The dot product, used to state orthogonality. *)
Definition dot (u v : Vector3 Q) : Q := (x u * x v + y u * y v + z u * z v)%Q.

End Vector3.

(* ------------------------------------------------------------------ *)
(** ** platform/win32.rs: [Surface::present]

    The GDI calls are parameters: [StretchDIBits] receives the arguments
    that vary ([hdc], the destination and source sizes, the pixels and the
    header; the offsets are all 0, [DIB_RGB_COLORS] and [SRCCOPY] fixed) and
    returns the number of scan lines; [ValidateRect(window, None)] returns
    whether it succeeded. A [panic!] or failed [assert!] is [None]. *)

Inductive SurfacePresentationError := ImageTooLarge.

Inductive Result (T E : Type) := Ok (v : T) | Err (e : E).
Arguments Ok {T E} _.
Arguments Err {T E} _.

Record Surface := { window : Z; device_context : Z }.

Record BITMAPINFOHEADER := {
  biSize : Z; biWidth : Z; biHeight : Z; biPlanes : Z; biBitCount : Z;
  biCompression : Z; biSizeImage : Z; biXPelsPerMeter : Z; biYPelsPerMeter : Z;
  biClrUsed : Z; biClrImportant : Z }.

Definition BI_BITFIELDS : Z := 3.

Record StretchDIBitsCall := {
  call_hdc : Z; dest_width : Z; dest_height : Z; src_width : Z; src_height : Z;
  bits : list Pixel; bitmap_header : BITMAPINFOHEADER }.

(** [usize as i32]: the low 32 bits, read as two's complement. *)
Definition usize_as_i32 (v : N) : Z :=
  let m := Z.of_N v mod 2 ^ 32 in if m <? 2 ^ 31 then m else m - 2 ^ 32.

(** [i32::max_value() as usize] *)
Definition i32_max_value_usize : N := Z.to_N i32_max.

(** The [BITMAPINFOHEADER] of lines 112-124; [-(extent.height as i32)] is a
    checked negation. *)
Definition present_header (ext : Extent) : option BITMAPINFOHEADER :=
  h ← checked (- usize_as_i32 (height ext));
  Some {| biSize := 40; biWidth := usize_as_i32 (width ext); biHeight := h;
          biPlanes := 1; biBitCount := 32; biCompression := BI_BITFIELDS;
          biSizeImage := 0; biXPelsPerMeter := 0; biYPelsPerMeter := 0;
          biClrUsed := 0; biClrImportant := 0 |}.

Section Win32.

Context (StretchDIBits : StretchDIBitsCall -> Z) (ValidateRect : Z -> bool) (GDI_ERROR : Z).

Definition Surface_present (surface : Surface) (buf : list Pixel) (ext : Extent)
    : option (Result unit SurfacePresentationError) :=
  if (i32_max_value_usize <? width ext)%N then Some (Err ImageTooLarge)
  else if (i32_max_value_usize <? height ext)%N then Some (Err ImageTooLarge)
  else match present_header ext with
       | None => None
       | Some hdr =>
           let scan_lines :=
             StretchDIBits {| call_hdc := device_context surface;
                              dest_width := usize_as_i32 (width ext);
                              dest_height := usize_as_i32 (height ext);
                              src_width := usize_as_i32 (width ext);
                              src_height := usize_as_i32 (height ext);
                              bits := buf; bitmap_header := hdr |} in
           if scan_lines =? GDI_ERROR then None
           else if scan_lines =? 0 then None
           else if ValidateRect (window surface) then Some (Ok tt) else None
       end.

(** [SwapChain::present(&self, surface)]. *)
Definition SwapChain_present (sc : SwapChain) (surface : Surface)
    : option (Result unit SurfacePresentationError) :=
  Surface_present surface (buffer sc) (extent sc).

End Win32.

(* ------------------------------------------------------------------ *)
(** ** examples/simple.rs

    The example's [Shader] is [identity_vertex_shader] and
    [constant_fragment example_color]; its one triangle is [example_triangle]. *)

Definition example_vertices : list (TriangleVertices Q) := [example_triangle].


(** [Event::RedrawRequested]: [clear(Pixel::BLACK)], then [draw_rasterized]
    (the [present] that follows is [SwapChain_present]). *)
Definition example_on_redraw (sc : SwapChain) : option SwapChain :=
  let sc1 := clear sc BLACK in
  match draw_rasterized (constant_fragment example_color) identity_vertex_shader
          sc1 example_vertices tt with
  | Some (sc2, _) => Some sc2
  | None => None
  end.

(* ------------------------------------------------------------------ *)
(** ** More notions used in the statements *)

(** The vertex orders obtained by rotating and by swapping the first two. *)
Definition rotate_vertices (t : Triangle2D) : Triangle2D := Triangle2D_new (_1 t) (_2 t) (_0 t).
Definition swap_vertices (t : Triangle2D) : Triangle2D := Triangle2D_new (_1 t) (_0 t) (_2 t).

(** Coordinates within [-B, B]. *)
Definition within (B : Z) (p : Vector2 Z) : Prop := -B <= x p <= B /\ -B <= y p <= B.
Definition triangle_within (B : Z) (t : Triangle2D) : Prop :=
  within B (_0 t) /\ within B (_1 t) /\ within B (_2 t).

(** A bound on pixel-space coordinates under which no [i32] operation of
    [hit_test] overflows: [3 * 2 * (2 * 9000)^2 <= i32::MAX]. *)
Definition overflow_free_bound : Z := 9000.

(** The number of fragment-shader invocations of a draw: for each triangle,
    the candidate points that pass [hit_test] and [is_point_inside]. *)
Fixpoint fragment_calls `{F32Ops F} (vertex_run : Vector2 F -> Vector2 F) (sc : SwapChain)
    (vertices : list (TriangleVertices F)) : nat :=
  match vertices with
  | [] => 0
  | vt :: vs =>
      let t := pixel_triangle vertex_run sc vt in
      (length (written sc t (candidates (encapsulating_rectangle t))) +
       fragment_calls vertex_run sc vs)%nat
  end.

(** [n] successive invocations of the fragment shader from state [s]. *)
Definition shader_steps {S : Type} (fragment_run : S -> Pixel * S) (n : nat) (s : S) : S :=
  Nat.iter n (fun s => snd (fragment_run s)) s.

(** The [LogicalSize] of an extent. *)
Definition extent_size (ext : Extent) : LogicalSize :=
  {| size_width := width ext; size_height := height ext |}.

(** [point] is collinear with every pair of vertices of [t]: the three
    sub-areas of [hit_test] are 0. *)
Definition on_vertex_lines (t : Triangle2D) (point : Vector2 Z) : bool :=
  (area (Triangle2D_new point (_0 t) (_1 t)) =? 0) &&
  (area (Triangle2D_new point (_1 t) (_2 t)) =? 0) &&
  (area (Triangle2D_new point (_2 t) (_0 t)) =? 0).

(** The candidate points of [t]'s rectangle that are on the vertex lines
    and inside the extent of [sc], in loop order. *)
Definition degenerate_hits (sc : SwapChain) (t : Triangle2D) : list (Vector2 Z) :=
  List.filter (fun q => on_vertex_lines t q && is_point_inside sc q)
              (candidates (encapsulating_rectangle t)).

(** The three vertices share their x coordinate, or share their y coordinate. *)
Definition flat_triangle (t : Triangle2D) : Prop :=
  (x (_1 t) = x (_0 t) /\ x (_2 t) = x (_0 t)) \/
  (y (_1 t) = y (_0 t) /\ y (_2 t) = y (_0 t)).

(* ================================================================== *)
(** * Lemmas and theorems *)

(* ------------------------------------------------------------------ *)
(** ** Geometry of [Triangle2D] *)

Lemma area_nonneg (t : Triangle2D) : 0 <= area t.
Proof. apply Z.abs_nonneg. Qed.

Lemma min_Zmin (lhs rhs : Z) : min lhs rhs = Z.min lhs rhs.
Proof. unfold min. destruct (Z.ltb_spec lhs rhs); lia. Qed.

Lemma max_Zmax (lhs rhs : Z) : max lhs rhs = Z.max lhs rhs.
Proof. unfold max. destruct (Z.ltb_spec rhs lhs); lia. Qed.

Lemma In_Range (lo hi v : Z) : In v (Range lo hi) <-> lo <= v < hi.
Proof.
  unfold Range. rewrite in_map_iff. split.
  - intros [i [<- Hi]]. apply in_seq in Hi. lia.
  - intros Hv. exists (Z.to_nat (v - lo)). split; [lia|]. apply in_seq. lia.
Qed.

Lemma In_candidates (r : Rectangle2D) (p : Vector2 Z) :
  In p (candidates r) <->
  x (lefttopmost r) <= x p < x (rightbottommost r) /\
  y (lefttopmost r) <= y p < y (rightbottommost r).
Proof.
  unfold candidates, x_range, y_range. rewrite in_flat_map. split.
  - intros [yy [Hy Hp]]. apply in_map_iff in Hp as [xx [<- Hx]].
    rewrite In_Range in Hx, Hy. simpl. lia.
  - intros [Hx Hy]. exists (y p). rewrite In_Range. split; [lia|].
    apply in_map_iff. exists (x p). rewrite In_Range. destruct p; simpl in *. auto.
Qed.

(** C10: [Pixel::BLACK] is [Pixel::new(0x00, 0x00, 0x00, 0x0F)] (alpha 15, not
    255), [Pixel::RED] is [Pixel::new(0xFF, 0xFF, 0xFF, 0xFF)] (white), and a
    [SwapChain::new] buffer holds only the pixel [(0, 0, 0, 0x0F)]. *)
Theorem named_colors_C10 :
  BLACK = Pixel_new 0x00 0x00 0x00 0x0F /\ alpha BLACK = 0x0F /\ alpha BLACK <> 0xFF /\
  RED = Pixel_new 0xFF 0xFF 0xFF 0xFF /\
  red RED = 0xFF /\ green RED = 0xFF /\ blue RED = 0xFF /\ alpha RED = 0xFF /\
  (forall size : LogicalSize,
     Forall (fun px => px = Pixel_new 0x00 0x00 0x00 0x0F) (buffer (SwapChain_new size))).
Proof.
  repeat split; try discriminate.
  intros size. simpl. unfold create_pixel_buffer. apply Forall_replicate. reflexivity.
Qed.

(** C2: [vertex_to_pixel_position] maps [v] to
    [(round((v.x + 1) / 2 * width) as i32, round((v.y + 1) / 2 * height) as i32)]
    in [f32] arithmetic: X is scaled by the width, Y by the height. On a
    200x100 swap chain the NDC point (0, 0) goes to (100, 50) and
    (0.5, 0.5) to (150, 75). *)
Theorem vertex_to_pixel_position_C2 :
  (forall (F : Type) (ops : F32Ops F) (sc : SwapChain) (v : Vector2 F),
     x (vertex_to_pixel_position sc v)
       = f_as_i32 (f_round (f_mul (f_div (f_add (x v) f_one) f_two)
                                  (f_of_usize (width (extent sc))))) /\
     y (vertex_to_pixel_position sc v)
       = f_as_i32 (f_round (f_mul (f_div (f_add (y v) f_one) f_two)
                                  (f_of_usize (height (extent sc)))))) /\
  (let sc := resize_with_clear_color (SwapChain_new size2)
               {| size_width := 200; size_height := 100 |} BLACK in
   vertex_to_pixel_position sc (Vector2_new 0%Q 0%Q) = Vector2_new 100 50 /\
   vertex_to_pixel_position sc (Vector2_new (1 # 2)%Q (1 # 2)%Q) = Vector2_new 150 75).
Proof.
  split.
  - intros F ops sc v. split; reflexivity.
  - vm_compute. split; reflexivity.
Qed.

(** C5: the encapsulating rectangle runs from [(min(x0,x1,x2), min(y0,y1,y2))]
    to [(max(x0,x1,x2), max(y0,y1,y2))], its ranges are half-open, and the
    points that rasterization passes to [hit_test] (its [candidates]) are
    exactly the integer points of [x_range] x [y_range]. *)
Theorem encapsulating_rectangle_C5 (t : Triangle2D) :
  let r := encapsulating_rectangle t in
  lefttopmost r = Vector2_new (Z.min (x (_0 t)) (Z.min (x (_1 t)) (x (_2 t))))
                              (Z.min (y (_0 t)) (Z.min (y (_1 t)) (y (_2 t)))) /\
  rightbottommost r = Vector2_new (Z.max (x (_0 t)) (Z.max (x (_1 t)) (x (_2 t))))
                                  (Z.max (y (_0 t)) (Z.max (y (_1 t)) (y (_2 t)))) /\
  (forall v, In v (x_range r) <-> x (lefttopmost r) <= v < x (rightbottommost r)) /\
  (forall v, In v (y_range r) <-> y (lefttopmost r) <= v < y (rightbottommost r)) /\
  (forall p, In p (candidates r) <-> In (x p) (x_range r) /\ In (y p) (y_range r)) /\
  (forall (S : Type) (fragment_run : S -> Pixel * S) (st : SwapChain * S),
     rasterize_triangle fragment_run t st = raster_points fragment_run t (candidates r) st).
Proof.
  cbv zeta.
  split; [unfold encapsulating_rectangle, min_x, min_y; simpl; rewrite !min_Zmin; reflexivity|].
  split; [unfold encapsulating_rectangle, max_x, max_y; simpl; rewrite !max_Zmax; reflexivity|].
  split; [intros v; apply In_Range|]. split; [intros v; apply In_Range|].
  split; [|reflexivity].
  intros p. rewrite In_candidates. unfold x_range, y_range. rewrite !In_Range. tauto.
Qed.

Lemma area_cross (t : Triangle2D) : area t = Z.abs (cross t).
Proof. reflexivity. Qed.

Lemma cross_zero_collinear (t : Triangle2D) : cross t = 0 <-> collinear t.
Proof.
  destruct t as [[x0 y0] [x1 y1] [x2 y2]]. unfold cross, collinear; simpl. split.
  - intros H.
    destruct (Z.eq_dec (x1 - x0) 0) as [Ha|Ha]; [destruct (Z.eq_dec (y1 - y0) 0) as [Hb|Hb]|].
    + destruct (Z.eq_dec (x2 - x0) 0) as [Hc|Hc]; [destruct (Z.eq_dec (y2 - y0) 0) as [Hd|Hd]|].
      * exists 1, 0, x0. lia.
      * exists (y2 - y0), (x0 - x2), ((y2 - y0) * x0 + (x0 - x2) * y0).
        assert (x1 = x0) by lia. assert (y1 = y0) by lia. subst. split; [lia|]. nia.
      * exists (y2 - y0), (x0 - x2), ((y2 - y0) * x0 + (x0 - x2) * y0).
        assert (x1 = x0) by lia. assert (y1 = y0) by lia. subst. split; [lia|]. nia.
    + exists (y1 - y0), (x0 - x1), ((y1 - y0) * x0 + (x0 - x1) * y0). split; [lia|]. nia.
    + exists (y1 - y0), (x0 - x1), ((y1 - y0) * x0 + (x0 - x1) * y0). split; [lia|]. nia.
  - intros (p & q & r & Hpq & H0 & H1 & H2).
    assert (Ha : p * (x1 - x0) = - (q * (y1 - y0))) by lia.
    assert (Hc : p * (x2 - x0) = - (q * (y2 - y0))) by lia.
    set (D := (x1 - x0) * (y2 - y0) - (x2 - x0) * (y1 - y0)).
    assert (HpD : p * D = 0).
    { unfold D. replace (p * ((x1 - x0) * (y2 - y0) - (x2 - x0) * (y1 - y0)))
        with (p * (x1 - x0) * (y2 - y0) - p * (x2 - x0) * (y1 - y0)) by ring.
      rewrite Ha, Hc. ring. }
    assert (HqD : q * D = 0).
    { unfold D. replace (q * ((x1 - x0) * (y2 - y0) - (x2 - x0) * (y1 - y0)))
        with ((x1 - x0) * (q * (y2 - y0)) - (x2 - x0) * (q * (y1 - y0))) by ring.
      replace (q * (y2 - y0)) with (- (p * (x2 - x0))) by lia.
      replace (q * (y1 - y0)) with (- (p * (x1 - x0))) by lia. ring. }
    destruct Hpq as [Hp|Hq].
    + apply Z.mul_eq_0 in HpD. lia.
    + apply Z.mul_eq_0 in HqD. lia.
Qed.

(** C4: [area] is [|(x1-x0)*(y2-y0) - (x2-x0)*(y1-y0)|], twice the geometric
    (shoelace) area of the triangle, and it is 0 exactly when the three
    vertices are collinear or coincident. *)
Theorem area_C4 (t : Triangle2D) :
  area t = Z.abs ((x (_1 t) - x (_0 t)) * (y (_2 t) - y (_0 t))
                  - (x (_2 t) - x (_0 t)) * (y (_1 t) - y (_0 t))) /\
  (inject_Z (area t) == 2 * geometric_area t)%Q /\
  (area t = 0 <-> collinear t).
Proof.
  split; [reflexivity|]. split.
  - unfold geometric_area. rewrite area_cross.
    replace (x (_0 t) * (y (_1 t) - y (_2 t)) + x (_1 t) * (y (_2 t) - y (_0 t))
             + x (_2 t) * (y (_0 t) - y (_1 t))) with (cross t) by (unfold cross; ring).
    unfold inject_Z. rewrite <- Zabs_Qabs. field.
  - rewrite area_cross, <- cross_zero_collinear. lia.
Qed.

(** The three signed sub-areas of [hit_test], in raw coordinates. *)
Section SubAreas.

Variables x0 y0 x1 y1 x2 y2 px py : Z.

Let s1 := (x0 - px) * (y1 - py) - (x1 - px) * (y0 - py).
Let s2 := (x1 - px) * (y2 - py) - (x2 - px) * (y1 - py).
Let s3 := (x2 - px) * (y0 - py) - (x0 - px) * (y2 - py).
Let D := (x1 - x0) * (y2 - y0) - (x2 - x0) * (y1 - y0).

Lemma sub_areas_sum : s1 + s2 + s3 = D.
Proof. unfold s1, s2, s3, D. ring. Qed.

Lemma sub_areas_cramer_x : s2 * x0 + s3 * x1 + s1 * x2 = D * px.
Proof. unfold s1, s2, s3, D. ring. Qed.

Lemma sub_areas_cramer_y : s2 * y0 + s3 * y1 + s1 * y2 = D * py.
Proof. unfold s1, s2, s3, D. ring. Qed.

Lemma sub_areas_convex (l0 l1 l2 : Z) :
  (l0 + l1 + l2) * px = l0 * x0 + l1 * x1 + l2 * x2 ->
  (l0 + l1 + l2) * py = l0 * y0 + l1 * y1 + l2 * y2 ->
  (l0 + l1 + l2) * s1 = l2 * D /\ (l0 + l1 + l2) * s2 = l0 * D /\
  (l0 + l1 + l2) * s3 = l1 * D.
Proof.
  intros Hx Hy. set (n := l0 + l1 + l2) in *. unfold s1, s2, s3, D.
  split; [|split].
  - replace (n * ((x0 - px) * (y1 - py) - (x1 - px) * (y0 - py)))
      with (n * (x0 * y1 - x1 * y0) - (n * px) * (y1 - y0) + (n * py) * (x1 - x0)) by ring.
    rewrite Hx, Hy. unfold n. ring.
  - replace (n * ((x1 - px) * (y2 - py) - (x2 - px) * (y1 - py)))
      with (n * (x1 * y2 - x2 * y1) - (n * px) * (y2 - y1) + (n * py) * (x2 - x1)) by ring.
    rewrite Hx, Hy. unfold n. ring.
  - replace (n * ((x2 - px) * (y0 - py) - (x0 - px) * (y2 - py)))
      with (n * (x2 * y0 - x0 * y2) - (n * px) * (y0 - y2) + (n * py) * (x0 - x2)) by ring.
    rewrite Hx, Hy. unfold n. ring.
Qed.

Lemma sub_areas_inside (l0 l1 l2 : Z) :
  0 <= l0 -> 0 <= l1 -> 0 <= l2 -> 0 < l0 + l1 + l2 ->
  (l0 + l1 + l2) * px = l0 * x0 + l1 * x1 + l2 * x2 ->
  (l0 + l1 + l2) * py = l0 * y0 + l1 * y1 + l2 * y2 ->
  Z.abs s1 + Z.abs s2 + Z.abs s3 = Z.abs D.
Proof.
  intros H0 H1 H2 Hn Hx Hy.
  destruct (sub_areas_convex l0 l1 l2 Hx Hy) as (E1 & E2 & E3).
  set (n := l0 + l1 + l2) in *.
  apply (Z.mul_reg_l _ _ n); [lia|].
  assert (A1 : n * Z.abs s1 = l2 * Z.abs D).
  { rewrite <- (Z.abs_eq n), <- (Z.abs_eq l2), <- !Z.abs_mul by lia. now rewrite E1. }
  assert (A2 : n * Z.abs s2 = l0 * Z.abs D).
  { rewrite <- (Z.abs_eq n), <- (Z.abs_eq l0), <- !Z.abs_mul by lia. now rewrite E2. }
  assert (A3 : n * Z.abs s3 = l1 * Z.abs D).
  { rewrite <- (Z.abs_eq n), <- (Z.abs_eq l1), <- !Z.abs_mul by lia. now rewrite E3. }
  rewrite !Z.mul_add_distr_l, A1, A2, A3. unfold n. ring.
Qed.

Lemma sub_areas_ge : Z.abs D <= Z.abs s1 + Z.abs s2 + Z.abs s3.
Proof. pose proof sub_areas_sum. lia. Qed.

Lemma sub_areas_eq_inside :
  D <> 0 -> Z.abs s1 + Z.abs s2 + Z.abs s3 = Z.abs D ->
  exists l0 l1 l2 : Z, 0 <= l0 /\ 0 <= l1 /\ 0 <= l2 /\ 0 < l0 + l1 + l2 /\
    (l0 + l1 + l2) * px = l0 * x0 + l1 * x1 + l2 * x2 /\
    (l0 + l1 + l2) * py = l0 * y0 + l1 * y1 + l2 * y2.
Proof.
  intros HD Heq. pose proof sub_areas_sum as Hs.
  pose proof sub_areas_cramer_x as Cx. pose proof sub_areas_cramer_y as Cy.
  destruct (Z_lt_ge_dec 0 D) as [Hpos|Hneg].
  - assert (0 <= s1 /\ 0 <= s2 /\ 0 <= s3) as (P1 & P2 & P3) by lia.
    exists s2, s3, s1. repeat split; lia.
  - assert (s1 <= 0 /\ s2 <= 0 /\ s3 <= 0) as (P1 & P2 & P3) by lia.
    exists (- s2), (- s3), (- s1). repeat split; lia.
Qed.

End SubAreas.

(** C3: [hit_test] holds exactly when the three sub-areas add up to the
    triangle's area; for a non-degenerate triangle they do for every point in
    the closed triangle, and for every point outside their sum is strictly
    larger. *)
Theorem hit_test_C3 (t : Triangle2D) (point : Vector2 Z) :
  (hit_test t point = true <-> sub_area_sum t point = area t) /\
  (area t <> 0 ->
     (in_triangle t point -> sub_area_sum t point = area t) /\
     (~ in_triangle t point -> sub_area_sum t point > area t)).
Proof.
  split.
  - unfold hit_test, sub_area_sum. apply Z.eqb_eq.
  - destruct t as [[x0 y0] [x1 y1] [x2 y2]], point as [px py].
    unfold sub_area_sum, area, in_triangle; simpl. intros HD. split.
    + intros (l0 & l1 & l2 & H0 & H1 & H2 & Hn & Hx & Hy).
      apply (sub_areas_inside x0 y0 x1 y1 x2 y2 px py l0 l1 l2); assumption.
    + intros Hout.
      pose proof (sub_areas_ge x0 y0 x1 y1 x2 y2 px py) as Hge.
      destruct (Z.eq_dec
        (Z.abs ((x0 - px) * (y1 - py) - (x1 - px) * (y0 - py))
         + Z.abs ((x1 - px) * (y2 - py) - (x2 - px) * (y1 - py))
         + Z.abs ((x2 - px) * (y0 - py) - (x0 - px) * (y2 - py)))
        (Z.abs ((x1 - x0) * (y2 - y0) - (x2 - x0) * (y1 - y0)))) as [Heq|Hneq].
      * exfalso. apply Hout.
        apply (sub_areas_eq_inside x0 y0 x1 y1 x2 y2 px py); [lia|exact Heq].
      * lia.
Qed.

(* ------------------------------------------------------------------ *)
(** ** Facts about the swap chain operations *)

Lemma checked_Some (v w : Z) : checked v = Some w -> w = v /\ i32_min <= v <= i32_max.
Proof.
  unfold checked. destruct (i32_min <=? v) eqn:E1, (v <=? i32_max) eqn:E2; simpl;
    intros H; try discriminate. injection H as <-. lia.
Qed.

Ltac inv_checked :=
  repeat match goal with
  | H : checked ?v = Some ?w |- _ =>
      apply checked_Some in H as [? ?]; subst w
  | H : (?m ≫= ?k) = Some ?r |- _ =>
      let E := fresh "E" in destruct m eqn:E; simpl in H; [|discriminate]
  end.

Lemma area_i32_Some (t : Triangle2D) (v : Z) : area_i32 t = Some v -> v = area t.
Proof. unfold area_i32. intros H. inv_checked. reflexivity. Qed.

Lemma hit_test_i32_Some (t : Triangle2D) (point : Vector2 Z) (hit : bool) :
  hit_test_i32 t point = Some hit -> hit = hit_test t point.
Proof.
  unfold hit_test_i32. intros H. inv_checked.
  repeat match goal with H : area_i32 _ = Some _ |- _ => apply area_i32_Some in H end.
  injection H as <-. subst. unfold hit_test. reflexivity.
Qed.

Lemma is_point_inside_extent (sc sc' : SwapChain) (point : Vector2 Z) :
  extent sc' = extent sc -> is_point_inside sc' point = is_point_inside sc point.
Proof. intros E. unfold is_point_inside. now rewrite E. Qed.

Lemma written_extent (sc sc' : SwapChain) (t : Triangle2D) (points : list (Vector2 Z)) :
  extent sc' = extent sc -> written sc' t points = written sc t points.
Proof.
  intros E. unfold written. rewrite E. f_equal. apply List.filter_ext. intros q.
  now rewrite (is_point_inside_extent sc sc').
Qed.

Lemma pixel_index_bound (sc : SwapChain) (point : Vector2 Z) :
  is_point_inside sc point = true ->
  (pixel_index (extent sc) point < N.to_nat (width (extent sc) * height (extent sc)))%nat.
Proof.
  unfold is_point_inside, pixel_index. rewrite !andb_true_iff, N.ltb_lt, N.ltb_lt.
  intros [[[_ _] Hx] Hy].
  set (X := i32_as_usize (x point)) in *. set (Y := i32_as_usize (y point)) in *.
  set (w := width (extent sc)) in *. set (h := height (extent sc)) in *.
  assert (Y * w + X < w * h)%N by nia. lia.
Qed.

Lemma pixel_index_inj (sc : SwapChain) (p q : Vector2 Z) :
  is_point_inside sc p = true -> is_point_inside sc q = true ->
  pixel_index (extent sc) p = pixel_index (extent sc) q -> p = q.
Proof.
  unfold is_point_inside, pixel_index, i32_as_usize.
  rewrite !andb_true_iff, !N.ltb_lt, !Z.leb_le.
  intros [[[Hpx Hpy] Hpw] Hph] [[[Hqx Hqy] Hqw] Hqh] E.
  destruct p as [px py], q as [qx qy]; simpl in *.
  destruct (px <? 0) eqn:?, (py <? 0) eqn:?, (qx <? 0) eqn:?, (qy <? 0) eqn:?;
    rewrite ?Z.ltb_lt, ?Z.ltb_ge in *; try lia.
  apply N2Nat.inj in E.
  set (w := width (extent sc)) in *.
  assert (Z.to_N py = Z.to_N qy /\ Z.to_N px = Z.to_N qx) as [Ey Ex].
  { destruct (N.lt_trichotomy (Z.to_N py) (Z.to_N qy)) as [Hl|[Hl|Hl]]; [nia| |nia].
    split; [exact Hl|]. rewrite Hl in E. lia. }
  f_equal; lia.
Qed.

Lemma set_pixel_Some (sc sc' : SwapChain) (point : Vector2 Z) (color : Pixel) :
  set_pixel sc point color = Some sc' ->
  extent sc' = extent sc /\
  buffer sc' = <[pixel_index (extent sc) point := color]> (buffer sc) /\
  (pixel_index (extent sc) point < length (buffer sc))%nat.
Proof.
  unfold set_pixel. destruct (Nat.ltb_spec (pixel_index (extent sc) point) (length (buffer sc)));
    intros Hs; [|discriminate]. injection Hs as <-. auto.
Qed.

Lemma set_pixel_inside (sc : SwapChain) (point : Vector2 Z) (color : Pixel) :
  wf sc -> is_point_inside sc point = true ->
  set_pixel sc point color
    = Some {| extent := extent sc;
              buffer := <[pixel_index (extent sc) point := color]> (buffer sc) |}.
Proof.
  intros Hwf Hin. unfold set_pixel. apply pixel_index_bound in Hin.
  unfold wf in Hwf. rewrite <- Hwf in Hin. apply Nat.ltb_lt in Hin. now rewrite Hin.
Qed.

Lemma set_pixel_same_shape (sca scb sca1 : SwapChain) (point : Vector2 Z) (color : Pixel) :
  extent scb = extent sca -> length (buffer scb) = length (buffer sca) ->
  set_pixel sca point color = Some sca1 ->
  set_pixel scb point color
    = Some {| extent := extent scb;
              buffer := <[pixel_index (extent sca) point := color]> (buffer scb) |}.
Proof.
  intros Eext Elen Hs. apply set_pixel_Some in Hs as (_ & _ & Hlt).
  unfold set_pixel. rewrite Eext, Elen. apply Nat.ltb_lt in Hlt. now rewrite Hlt.
Qed.

Lemma written_cons (sc : SwapChain) (t : Triangle2D) (q : Vector2 Z) (qs : list (Vector2 Z)) :
  written sc t (q :: qs) = written sc t [q] ++ written sc t qs.
Proof. unfold written. simpl. destruct (hit_test t q && is_point_inside sc q); reflexivity. Qed.

Section DrawFacts.

Context {S : Type} (fragment_run : S -> Pixel * S).

(** One loop iteration writes the same index with the same colour whatever the
    buffer holds: its control flow only depends on the extent, the buffer's
    length and the shader's state. *)
Lemma raster_point_oblivious (t : Triangle2D) (q : Vector2 Z) (sca scb sca' : SwapChain)
    (s s' : S) :
  raster_point fragment_run t (sca, s) q = Some (sca', s') ->
  extent scb = extent sca -> length (buffer scb) = length (buffer sca) ->
  exists scb', raster_point fragment_run t (scb, s) q = Some (scb', s') /\
    extent sca' = extent sca /\ extent scb' = extent sca /\
    length (buffer sca') = length (buffer sca) /\ length (buffer scb') = length (buffer scb) /\
    (forall i, In i (written sca t [q]) -> buffer sca' !! i = buffer scb' !! i) /\
    (forall i, ~ In i (written sca t [q]) ->
       buffer sca' !! i = buffer sca !! i /\ buffer scb' !! i = buffer scb !! i).
Proof.
  intros H Eext Elen. unfold raster_point in *.
  destruct (hit_test_i32 t q) as [hit|] eqn:Eh; [|discriminate].
  apply hit_test_i32_Some in Eh. unfold written. simpl. rewrite <- Eh.
  rewrite (is_point_inside_extent sca scb q Eext).
  destruct hit; [destruct (is_point_inside sca q) eqn:Ei|]; simpl.
  - destruct (fragment_run s) as [col s1].
    destruct (set_pixel sca q col) as [sca1|] eqn:Es; [|discriminate].
    injection H as <- <-.
    rewrite (set_pixel_same_shape sca scb sca1 q col Eext Elen Es).
    apply set_pixel_Some in Es as (Ee & Eb & Hlt).
    eexists. split; [reflexivity|]. simpl. rewrite Ee, Eb, !length_insert.
    split; [reflexivity|]. split; [congruence|]. split; [reflexivity|].
    split; [reflexivity|]. split.
    + intros i [<-|[]]. rewrite !list_lookup_insert_eq; [reflexivity|lia|lia].
    + intros i Hi. rewrite !list_lookup_insert_ne; [split; reflexivity| |];
        intros <-; apply Hi; now left.
  - injection H as <- <-. exists scb.
    split; [reflexivity|]. split; [reflexivity|]. split; [congruence|].
    split; [reflexivity|]. split; [reflexivity|]. split; [intros i []|]. auto.
  - injection H as <- <-. exists scb.
    split; [reflexivity|]. split; [reflexivity|]. split; [congruence|].
    split; [reflexivity|]. split; [reflexivity|]. split; [intros i []|]. auto.
Qed.

Lemma raster_points_oblivious (t : Triangle2D) (qs : list (Vector2 Z)) :
  forall (sca scb sca' : SwapChain) (s s' : S),
  raster_points fragment_run t qs (sca, s) = Some (sca', s') ->
  extent scb = extent sca -> length (buffer scb) = length (buffer sca) ->
  exists scb', raster_points fragment_run t qs (scb, s) = Some (scb', s') /\
    extent sca' = extent sca /\ extent scb' = extent sca /\
    length (buffer sca') = length (buffer sca) /\ length (buffer scb') = length (buffer scb) /\
    (forall i, In i (written sca t qs) -> buffer sca' !! i = buffer scb' !! i) /\
    (forall i, ~ In i (written sca t qs) ->
       buffer sca' !! i = buffer sca !! i /\ buffer scb' !! i = buffer scb !! i).
Proof.
  induction qs as [|q qs IH]; intros sca scb sca' s s' H Eext Elen; cbn [raster_points] in H.
  - injection H as <- <-. exists scb. simpl.
    split; [reflexivity|]. split; [reflexivity|]. split; [congruence|].
    split; [reflexivity|]. split; [reflexivity|]. split; [intros i []|]. auto.
  - destruct (raster_point fragment_run t (sca, s) q) as [[sca1 s1]|] eqn:E1;
      simpl in H; [|discriminate].
    destruct (raster_point_oblivious t q sca scb sca1 s s1 E1 Eext Elen)
      as (scb1 & E1b & Ea1 & Eb1 & La1 & Lb1 & Win1 & Wout1).
    destruct (IH sca1 scb1 sca' s1 s' H) as (scb' & Hb & Ea' & Eb' & La' & Lb' & Win & Wout);
      [congruence|congruence|].
    exists scb'. cbn [raster_points]. rewrite E1b. simpl. split; [exact Hb|].
    rewrite (written_extent sca sca1) in Win, Wout by exact Ea1.
    rewrite written_cons.
    split; [congruence|]. split; [congruence|]. split; [congruence|].
    split; [congruence|]. split.
    + intros i Hi. destruct (in_dec Nat.eq_dec i (written sca t qs)) as [Hin|Hnin].
      * now apply Win.
      * apply in_app_or in Hi as [Hi|Hi]; [|contradiction].
        destruct (Wout i Hnin) as [-> ->]. now apply Win1.
    + intros i Hi.
      destruct (Wout i) as [-> ->]; [intros Hin; apply Hi, in_or_app; now right|].
      apply Wout1. intros Hin; apply Hi, in_or_app; now left.
Qed.

Context `{F32Ops F} (vertex_run : Vector2 F -> Vector2 F).

Lemma pixel_triangle_extent (sc sc' : SwapChain) (vt : TriangleVertices F) :
  extent sc' = extent sc -> pixel_triangle vertex_run sc' vt = pixel_triangle vertex_run sc vt.
Proof. intros E. unfold pixel_triangle, vertex_to_pixel_position. now rewrite E. Qed.

Lemma draw_triangle_shape (sc sc' : SwapChain) (s s' : S) (vt : TriangleVertices F) :
  draw_triangle fragment_run vertex_run (sc, s) vt = Some (sc', s') ->
  extent sc' = extent sc /\ length (buffer sc') = length (buffer sc).
Proof.
  unfold draw_triangle, rasterize_triangle. simpl. intros Hd.
  destruct (raster_points_oblivious _ _ sc sc sc' s s' Hd eq_refl eq_refl)
    as (_ & _ & Ea & _ & La & _). auto.
Qed.

Lemma draw_from_shape (vs : list (TriangleVertices F)) :
  forall (sc sc' : SwapChain) (s s' : S),
  draw_rasterized_from fragment_run vertex_run vs (sc, s) = Some (sc', s') ->
  extent sc' = extent sc /\ length (buffer sc') = length (buffer sc).
Proof.
  induction vs as [|vt vs IH]; intros sc sc' s s' Hd; simpl in Hd.
  - injection Hd as <- <-. auto.
  - destruct (draw_triangle fragment_run vertex_run (sc, s) vt) as [[sc1 s1]|] eqn:E1;
      simpl in Hd; [|discriminate].
    apply draw_triangle_shape in E1 as [Ee1 Le1]. apply IH in Hd as [Ee Le].
    split; congruence.
Qed.

Lemma draw_from_app (vs1 vs2 : list (TriangleVertices F)) :
  forall (st st' : SwapChain * S),
  draw_rasterized_from fragment_run vertex_run (vs1 ++ vs2) st = Some st' ->
  exists st1, draw_rasterized_from fragment_run vertex_run vs1 st = Some st1 /\
              draw_rasterized_from fragment_run vertex_run vs2 st1 = Some st'.
Proof.
  induction vs1 as [|vt vs1 IH]; intros st st' Hd; simpl in *.
  - eauto.
  - destruct (draw_triangle fragment_run vertex_run st vt) as [st1|]; simpl in *;
      [|discriminate].
    apply IH in Hd. exact Hd.
Qed.

End DrawFacts.

Section PainterOrder.

Context {S : Type} (fragment_run : S -> Pixel * S).
Context `{F32Ops F} (vertex_run : Vector2 F -> Vector2 F).

(** Every index that a pass writes holds a colour returned by the shader. *)
Lemma raster_points_written_value (t : Triangle2D) (qs : list (Vector2 Z)) :
  forall (sc sc' : SwapChain) (s s' : S) (i : nat),
  raster_points fragment_run t qs (sc, s) = Some (sc', s') ->
  In i (written sc t qs) ->
  exists s0, buffer sc' !! i = Some (fst (fragment_run s0)).
Proof.
  induction qs as [|q qs IH]; intros sc sc' s s' i Hr Hi; [destruct Hi|].
  cbn [raster_points] in Hr.
  destruct (raster_point fragment_run t (sc, s) q) as [[sc1 s1]|] eqn:E1;
    simpl in Hr; [|discriminate].
  rewrite written_cons in Hi.
  pose proof (raster_point_oblivious fragment_run t q sc sc sc1 s s1 E1 eq_refl eq_refl)
    as (scb1 & _ & Ea1 & _ & _ & _ & _ & _).
  destruct (in_dec Nat.eq_dec i (written sc t qs)) as [Hin|Hnin].
  - rewrite <- (written_extent sc sc1) in Hin by exact Ea1. eapply IH; eauto.
  - pose proof (raster_points_oblivious fragment_run t qs sc1 sc1 sc' s1 s' Hr eq_refl eq_refl)
      as (scb' & _ & _ & _ & _ & _ & _ & Wout).
    rewrite (written_extent sc sc1) in Wout by exact Ea1.
    destruct (Wout i Hnin) as [-> _].
    apply in_app_or in Hi as [Hi|Hi]; [|contradiction].
    unfold raster_point in E1. unfold written in Hi. simpl in Hi.
    destruct (hit_test_i32 t q) as [hit|] eqn:Eh; [|discriminate].
    apply hit_test_i32_Some in Eh. rewrite <- Eh in Hi.
    destruct hit; [|destruct Hi].
    destruct (is_point_inside sc q); [|destruct Hi].
    destruct (fragment_run s) as [col s2] eqn:Ef.
    destruct (set_pixel sc q col) as [sc2|] eqn:Es; [|discriminate].
    injection E1 as <- <-. apply set_pixel_Some in Es as (_ & Eb & Hlt).
    destruct Hi as [<-|[]]. exists s. rewrite Ef, Eb. simpl.
    now apply list_lookup_insert_eq.
Qed.

(** Triangles that do not cover an in-extent point leave it unchanged. *)
Lemma draw_from_untouched (sc : SwapChain) (point : Vector2 Z) (vs : list (TriangleVertices F)) :
  is_point_inside sc point = true ->
  forall (sc2 sc' : SwapChain) (s2 s' : S),
  draw_rasterized_from fragment_run vertex_run vs (sc2, s2) = Some (sc', s') ->
  extent sc2 = extent sc ->
  (forall vt', In vt' vs -> ~ covers vertex_run sc vt' point) ->
  pixel_at sc' point = pixel_at sc2 point.
Proof.
  intros Hin. induction vs as [|vt vs IH]; intros sc2 sc' s2 s' Hd Ee Hnc;
    cbn [draw_rasterized_from] in Hd.
  - simpl in Hd. now injection Hd as <- <-.
  - destruct (draw_triangle fragment_run vertex_run (sc2, s2) vt) as [[sc3 s3]|] eqn:E3;
      simpl in Hd; [|discriminate].
    unfold draw_triangle, rasterize_triangle in E3. simpl in E3.
    rewrite (pixel_triangle_extent vertex_run sc sc2 vt Ee) in E3.
    set (T := pixel_triangle vertex_run sc vt) in *.
    pose proof (raster_points_oblivious fragment_run T _ sc2 sc2 sc3 s2 s3 E3 eq_refl eq_refl)
      as (scb3 & _ & Ea3 & _ & _ & _ & _ & Wout).
    rewrite (IH sc3 sc' s3 s' Hd) by (congruence || (intros; apply Hnc; now right)).
    unfold pixel_at. rewrite Ea3. apply Wout.
    intros Hw. unfold written in Hw. apply in_map_iff in Hw as [q [Eq Hq]].
    apply filter_In in Hq as [Hqc Hqb]. apply andb_true_iff in Hqb as [Hqh Hqi].
    rewrite (is_point_inside_extent sc sc2) in Hqi by exact Ee.
    rewrite Ee in Eq. apply (pixel_index_inj sc q point Hqi Hin) in Eq. subst q.
    apply (Hnc vt); [now left|]. unfold covers. fold T. auto.
Qed.

End PainterOrder.

Section ShaderCalls.

Context {S : Type} (fragment_run : S -> Pixel * S).

Lemma raster_points_state (t : Triangle2D) (qs : list (Vector2 Z)) :
  forall (sc sc' : SwapChain) (s s' : S),
  raster_points fragment_run t qs (sc, s) = Some (sc', s') ->
  s' = shader_steps fragment_run (length (written sc t qs)) s.
Proof.
  induction qs as [|q qs IH]; intros sc sc' s s' Hr; cbn [raster_points] in Hr.
  - injection Hr as <- <-. reflexivity.
  - rewrite written_cons, length_app.
    destruct (raster_point fragment_run t (sc, s) q) as [[sc1 s1]|] eqn:E1;
      cbn [mbind option_bind] in Hr; [|discriminate].
    pose proof (raster_point_oblivious fragment_run t q sc sc sc1 s s1 E1 eq_refl eq_refl)
      as (_ & _ & Ea1 & _).
    rewrite (IH sc1 sc' s1 s' Hr), (written_extent sc sc1) by exact Ea1.
    unfold raster_point in E1.
    destruct (hit_test_i32 t q) as [hit|] eqn:Eh; [|discriminate].
    apply hit_test_i32_Some in Eh. unfold written. cbn [List.filter map length].
    rewrite <- Eh.
    destruct hit; [destruct (is_point_inside sc q)|].
    + destruct (fragment_run s) as [col s2] eqn:Ef.
      destruct (set_pixel sc q col) as [sc2|]; [|discriminate].
      injection E1 as _ <-. cbn [List.filter andb map length].
      unfold shader_steps. rewrite Nat.add_comm, Nat.iter_add. simpl.
      rewrite Ef. reflexivity.
    + injection E1 as _ <-. reflexivity.
    + injection E1 as _ <-. reflexivity.
Qed.

Context `{F32Ops F} (vertex_run : Vector2 F -> Vector2 F).

Lemma draw_from_state (sc : SwapChain) (vs : list (TriangleVertices F)) :
  forall (sc2 sc' : SwapChain) (s2 s' : S), extent sc2 = extent sc ->
  draw_rasterized_from fragment_run vertex_run vs (sc2, s2) = Some (sc', s') ->
  s' = shader_steps fragment_run (fragment_calls vertex_run sc vs) s2.
Proof.
  induction vs as [|vt vs IH]; intros sc2 sc' s2 s' Ee Hd; cbn [draw_rasterized_from] in Hd.
  - injection Hd as _ <-. reflexivity.
  - destruct (draw_triangle fragment_run vertex_run (sc2, s2) vt) as [[sc3 s3]|] eqn:E3;
      cbn [mbind option_bind] in Hd; [|discriminate].
    pose proof (draw_triangle_shape fragment_run vertex_run sc2 sc3 s2 s3 vt E3) as [Ee3 _].
    rewrite (IH sc3 sc' s3 s' ltac:(congruence) Hd).
    unfold draw_triangle, rasterize_triangle in E3. cbn [fst] in E3.
    rewrite (pixel_triangle_extent vertex_run sc sc2 vt Ee) in E3.
    rewrite (raster_points_state _ _ sc2 sc3 s2 s3 E3), (written_extent sc sc2) by exact Ee.
    cbn [fragment_calls]. unfold shader_steps. now rewrite Nat.add_comm, Nat.iter_add.
Qed.

End ShaderCalls.

(** C6: [draw_rasterized] processes the triangles in input order and a later
    triangle overwrites an earlier one: when [vt] covers [point] and no later
    triangle does, the final pixel at [point] is the one [vt]'s pass leaves
    there, which is a colour returned by the fragment shader during that pass
    and does not depend on what the buffer held before it. *)
Theorem draw_rasterized_last_triangle_wins_C6 {S : Type} (fragment_run : S -> Pixel * S)
    `{F32Ops F} (vertex_run : Vector2 F -> Vector2 F) (sc sc' : SwapChain) (s s' : S)
    (pre post : list (TriangleVertices F)) (vt : TriangleVertices F) (point : Vector2 Z) :
  draw_rasterized fragment_run vertex_run sc (pre ++ vt :: post) s = Some (sc', s') ->
  covers vertex_run sc vt point ->
  (forall vt', In vt' post -> ~ covers vertex_run sc vt' point) ->
  exists sc1 s1 sc2 s2,
    draw_rasterized fragment_run vertex_run sc pre s = Some (sc1, s1) /\
    draw_triangle fragment_run vertex_run (sc1, s1) vt = Some (sc2, s2) /\
    pixel_at sc' point = pixel_at sc2 point /\
    (exists s0, pixel_at sc2 point = Some (fst (fragment_run s0))) /\
    (forall buf : list Pixel, length buf = length (buffer sc1) ->
       exists sc2', draw_triangle fragment_run vertex_run
                      ({| extent := extent sc1; buffer := buf |}, s1) vt = Some (sc2', s2) /\
                    pixel_at sc2' point = pixel_at sc2 point).
Proof.
  intros Hd Hc Hnc. unfold draw_rasterized in Hd.
  apply draw_from_app in Hd as [[sc1 s1] [Hpre Hrest]].
  cbn [draw_rasterized_from] in Hrest.
  destruct (draw_triangle fragment_run vertex_run (sc1, s1) vt) as [[sc2 s2]|] eqn:Et;
    simpl in Hrest; [|discriminate].
  exists sc1, s1, sc2, s2.
  pose proof (draw_from_shape fragment_run vertex_run pre sc sc1 s s1 Hpre) as [Ee1 _].
  pose proof (draw_triangle_shape fragment_run vertex_run sc1 sc2 s1 s2 vt Et) as [Ee2 _].
  destruct Hc as (Hcand & Hhit & Hin).
  unfold draw_triangle, rasterize_triangle in Et |- *. simpl in Et |- *.
  rewrite (pixel_triangle_extent vertex_run sc sc1 vt Ee1) in Et |- *.
  set (T := pixel_triangle vertex_run sc vt) in *.
  assert (Hw : In (pixel_index (extent sc1) point)
                  (written sc1 T (candidates (encapsulating_rectangle T)))).
  { unfold written. apply in_map, filter_In. split; [exact Hcand|].
    rewrite Hhit, (is_point_inside_extent sc sc1 point Ee1), Hin. reflexivity. }
  split; [exact Hpre|]. split; [exact Et|]. split; [|split].
  - apply (draw_from_untouched fragment_run vertex_run sc point post Hin sc2 sc' s2 s' Hrest);
      [congruence|exact Hnc].
  - destruct (raster_points_written_value fragment_run T _ sc1 sc2 s1 s2 _ Et Hw) as [s0 Hs0].
    exists s0. unfold pixel_at. now rewrite Ee2.
  - intros buf Hlen.
    destruct (raster_points_oblivious fragment_run T _ sc1
                {| extent := extent sc1; buffer := buf |} sc2 s1 s2 Et eq_refl Hlen)
      as (sc2' & Hb & Ea & Eb & _ & _ & Win & _).
    exists sc2'. split.
    + rewrite (pixel_triangle_extent vertex_run sc _ vt); [exact Hb|]. simpl. congruence.
    + unfold pixel_at. rewrite Ea, Eb.
      symmetry. now apply Win.
Qed.

Lemma replicate_all (n : nat) (color : Pixel) :
  Forall (fun px => px = color) (replicate n color).
Proof. apply Forall_replicate. reflexivity. Qed.

(** C8: [buffer.len() == width * height] holds for [SwapChain::new] and is
    kept by [clear], [resize_with_clear_color] and [draw_rasterized];
    [clear(color)] sets every element to [color] and keeps the length. *)
Theorem swap_chain_invariant_C8 :
  (forall size : LogicalSize, wf (SwapChain_new size)) /\
  (forall (sc : SwapChain) (color : Pixel), wf sc -> wf (clear sc color)) /\
  (forall (sc : SwapChain) (color : Pixel),
     extent (clear sc color) = extent sc /\
     length (buffer (clear sc color)) = length (buffer sc) /\
     Forall (fun px => px = color) (buffer (clear sc color))) /\
  (forall (sc : SwapChain) (size : LogicalSize) (color : Pixel),
     wf (resize_with_clear_color sc size color)) /\
  (forall (S : Type) (fragment_run : S -> Pixel * S) (F : Type) (ops : F32Ops F)
          (vertex_run : Vector2 F -> Vector2 F) (sc sc' : SwapChain)
          (vertices : list (TriangleVertices F)) (s s' : S),
     wf sc -> draw_rasterized fragment_run vertex_run sc vertices s = Some (sc', s') ->
     wf sc').
Proof.
  split; [|split; [|split; [|split]]].
  - intros size. unfold wf, SwapChain_new, create_pixel_buffer. simpl.
    apply length_replicate.
  - intros sc color. unfold wf, clear. simpl. now rewrite length_map.
  - intros sc color. simpl. split; [reflexivity|]. split; [apply length_map|].
    apply List.Forall_forall. intros px Hpx. apply in_map_iff in Hpx as [? [<- _]]. reflexivity.
  - intros sc size color. unfold wf, resize_with_clear_color, create_pixel_buffer. simpl.
    apply length_replicate.
  - intros S fragment_run F ops vertex_run sc sc' vertices s s' Hwf Hd.
    apply draw_from_shape in Hd as [Ee Le]. unfold wf in *. congruence.
Qed.

(** C9: [resize_with_clear_color(size, color)] does not depend on the old
    swap chain, its buffer has [width * height] elements all equal to [color];
    at 0x0 the buffer is empty, and there [draw_rasterized] writes nothing,
    calls no fragment shader and does not panic, and [clear] changes nothing.
    (The [f32] fact used: [v * 0.0], rounded and cast to [i32], is 0 for every
    [v]: [±0] rounds to [±0], and [inf * 0] and NaN are NaN, which [as i32]
    maps to 0.) *)
Theorem resize_C9 :
  (forall (sc sc0 : SwapChain) (size : LogicalSize) (color : Pixel),
     resize_with_clear_color sc size color = resize_with_clear_color sc0 size color) /\
  (forall (sc : SwapChain) (size : LogicalSize) (color : Pixel),
     let sc' := resize_with_clear_color sc size color in
     extent sc' = {| width := size_width size; height := size_height size |} /\
     length (buffer sc') = N.to_nat (size_width size * size_height size) /\
     Forall (fun px => px = color) (buffer sc')) /\
  (forall (sc : SwapChain) (color : Pixel),
     buffer (resize_with_clear_color sc {| size_width := 0; size_height := 0 |} color) = []) /\
  (forall (F : Type) (ops : F32Ops F),
     (forall v : F, f_as_i32 (f_round (f_mul v (f_of_usize 0))) = 0) ->
     forall (S : Type) (fragment_run : S -> Pixel * S) (vertex_run : Vector2 F -> Vector2 F)
            (sc : SwapChain) (color : Pixel) (vertices : list (TriangleVertices F)) (s : S),
     let sc0 := resize_with_clear_color sc {| size_width := 0; size_height := 0 |} color in
     draw_rasterized fragment_run vertex_run sc0 vertices s = Some (sc0, s) /\
     (forall color' : Pixel, clear sc0 color' = sc0)).
Proof.
  split; [|split; [|split]].
  - reflexivity.
  - intros sc size color. simpl. split; [reflexivity|]. split.
    + unfold create_pixel_buffer. apply length_replicate.
    + apply replicate_all.
  - reflexivity.
  - intros F ops Hzero S fragment_run vertex_run sc color vertices s sc0. split.
    + unfold draw_rasterized. induction vertices as [|vt vertices IH]; [reflexivity|].
      cbn [draw_rasterized_from]. unfold draw_triangle at 1. simpl.
      assert (Hp : pixel_triangle vertex_run sc0 vt
                   = Triangle2D_new (Vector2_new 0 0) (Vector2_new 0 0) (Vector2_new 0 0)).
      { unfold pixel_triangle, vertex_to_pixel_position. simpl. now rewrite !Hzero. }
      rewrite Hp. exact IH.
    + intros color'. reflexivity.
Qed.

(** C7 (a defect): the write in [set_pixel] is guarded by [is_point_inside],
    under which the index is below [width * height], so on a well-formed swap
    chain the write never goes out of bounds; but [hit_test] runs first, on
    [i32], and its [area] overflows for far-away vertices: with Rust's default
    overflow checks [draw_rasterized] panics on the triangle
    (-1,-1), (50000,-1), (-1,50000) of a 2x2 swap chain, whose pixel-space
    area is [50001 * 50001 > i32::MAX]. *)
Theorem draw_rasterized_overflow_C7 :
  (forall (sc : SwapChain) (point : Vector2 Z) (color : Pixel),
     wf sc -> is_point_inside sc point = true ->
     set_pixel sc point color
       = Some {| extent := extent sc;
                 buffer := <[pixel_index (extent sc) point := color]> (buffer sc) |}) /\
  (forall (sc : SwapChain) (point : Vector2 Z),
     is_point_inside sc point = true ->
     (pixel_index (extent sc) point < N.to_nat (width (extent sc) * height (extent sc)))%nat) /\
  pixel_triangle identity_vertex_shader (SwapChain_new size2) huge_triangle
    = Triangle2D_new (Vector2_new 0 0) (Vector2_new 50001 0) (Vector2_new 0 50001) /\
  area (Triangle2D_new (Vector2_new 0 0) (Vector2_new 50001 0) (Vector2_new 0 50001))
    = 50001 * 50001 /\
  i32_max < 50001 * 50001 /\
  area_i32 (Triangle2D_new (Vector2_new 0 0) (Vector2_new 50001 0) (Vector2_new 0 50001))
    = None /\
  draw_rasterized (constant_fragment example_color) identity_vertex_shader
    (SwapChain_new size2) [huge_triangle] tt = None.
Proof.
  split; [exact set_pixel_inside|]. split; [exact pixel_index_bound|].
  split; [vm_compute; reflexivity|]. split; [reflexivity|].
  split; [vm_compute; reflexivity|]. split; [reflexivity|].
  reflexivity.
Qed.

(** Under a zero area, [hit_test] is [on_vertex_lines]: the sum of the three
    non-negative sub-areas equals 0 exactly when each of them is 0. *)
Lemma hit_test_zero_area (t : Triangle2D) (point : Vector2 Z) :
  area t = 0 -> hit_test t point = on_vertex_lines t point.
Proof.
  intros Ha. unfold hit_test, on_vertex_lines. cbv zeta. rewrite Ha.
  pose proof (area_nonneg (Triangle2D_new point (_0 t) (_1 t))).
  pose proof (area_nonneg (Triangle2D_new point (_1 t) (_2 t))).
  pose proof (area_nonneg (Triangle2D_new point (_2 t) (_0 t))).
  destruct (Z.eqb_spec (area (Triangle2D_new point (_0 t) (_1 t))) 0),
    (Z.eqb_spec (area (Triangle2D_new point (_1 t) (_2 t))) 0),
    (Z.eqb_spec (area (Triangle2D_new point (_2 t) (_0 t))) 0); cbn [andb];
    apply Z.eqb_eq || apply Z.eqb_neq; lia.
Qed.

(** The rectangle of a triangle has no integer point exactly when its
    vertices share their x coordinate or share their y coordinate. *)
Lemma flat_candidates_nil (t : Triangle2D) :
  candidates (encapsulating_rectangle t) = [] <-> flat_triangle t.
Proof.
  destruct t as [[x0 y0] [x1 y1] [x2 y2]].
  set (T := Triangle2D_new (Vector2_new x0 y0) (Vector2_new x1 y1) (Vector2_new x2 y2)).
  unfold flat_triangle; cbn [x y _0 _1 _2 T]. split.
  - intros Hnil.
    destruct (Z.eq_dec x1 x0), (Z.eq_dec x2 x0), (Z.eq_dec y1 y0), (Z.eq_dec y2 y0);
      try tauto; exfalso;
      (pose proof (proj2 (In_candidates (encapsulating_rectangle T)
                      (Vector2_new (Z.min x0 (Z.min x1 x2)) (Z.min y0 (Z.min y1 y2))))) as Hin;
       rewrite Hnil in Hin; apply Hin;
       unfold encapsulating_rectangle, min_x, min_y, max_x, max_y, T;
       cbn [x y _0 _1 _2 lefttopmost rightbottommost];
       rewrite !min_Zmin, !max_Zmax; lia).
  - intros Hf. destruct (candidates (encapsulating_rectangle T)) as [|p ps] eqn:E; [reflexivity|].
    exfalso. assert (Hp : In p (candidates (encapsulating_rectangle T))) by (rewrite E; now left).
    apply In_candidates in Hp.
    unfold encapsulating_rectangle, min_x, min_y, max_x, max_y, T in Hp.
    cbn [x y _0 _1 _2 lefttopmost rightbottommost] in Hp.
    rewrite !min_Zmin, !max_Zmax in Hp. destruct Hf as [[-> ->]|[-> ->]]; lia.
Qed.

(** C1 (as the code has it): a zero-area triangle is not skipped.
    [hit_test] then accepts exactly the points collinear with every pair of
    vertices. Nothing is tested exactly when the half-open rectangle has no
    integer point, that is when the three pixel-space vertices share their x
    coordinate or share their y coordinate (coincident vertices being one
    case); the pass is then the identity. Otherwise a zero-area triangle's
    pass that completes calls the fragment shader once for each candidate
    point on the vertex lines and inside the extent ([degenerate_hits]),
    writes a shader colour at each of these points and leaves every other
    pixel unchanged. The pixel-space triangle (0,0), (1,1), (2,2) on a 4x4
    swap chain gets two fragment invocations, at (0,0) and (1,1). *)
Theorem zero_area_triangles_C1 :
  (forall (t : Triangle2D) (point : Vector2 Z), area t = 0 ->
     (hit_test t point = true <->
        area (Triangle2D_new point (_0 t) (_1 t)) = 0 /\
        area (Triangle2D_new point (_1 t) (_2 t)) = 0 /\
        area (Triangle2D_new point (_2 t) (_0 t)) = 0)) /\
  (forall t : Triangle2D, candidates (encapsulating_rectangle t) = [] <-> flat_triangle t) /\
  (forall (S : Type) (fragment_run : S -> Pixel * S) (F : Type) (ops : F32Ops F)
          (vertex_run : Vector2 F -> Vector2 F) (sc : SwapChain) (vt : TriangleVertices F) (s : S),
     flat_triangle (pixel_triangle vertex_run sc vt) ->
     draw_rasterized fragment_run vertex_run sc [vt] s = Some (sc, s)) /\
  (forall (S : Type) (fragment_run : S -> Pixel * S) (F : Type) (ops : F32Ops F)
          (vertex_run : Vector2 F -> Vector2 F) (sc sc' : SwapChain) (vt : TriangleVertices F)
          (s s' : S),
     let t := pixel_triangle vertex_run sc vt in
     area t = 0 ->
     draw_rasterized fragment_run vertex_run sc [vt] s = Some (sc', s') ->
     extent sc' = extent sc /\
     s' = shader_steps fragment_run (length (degenerate_hits sc t)) s /\
     (forall q, In q (degenerate_hits sc t) ->
        exists s0, pixel_at sc' q = Some (fst (fragment_run s0))) /\
     (forall q, is_point_inside sc q = true -> ~ In q (degenerate_hits sc t) ->
        pixel_at sc' q = pixel_at sc q)) /\
  (let sc := SwapChain_new size4 in
   pixel_triangle identity_vertex_shader sc degenerate_triangle
     = Triangle2D_new (Vector2_new 0 0) (Vector2_new 1 1) (Vector2_new 2 2) /\
   draw_rasterized (counting_fragment RED) identity_vertex_shader sc [degenerate_triangle] 0%nat
     = Some ({| extent := extent sc; buffer := <[5%nat := RED]> (<[0%nat := RED]> (buffer sc)) |},
             2%nat)).
Proof.
  split; [|split; [|split; [|split]]].
  - intros t point Ha. rewrite (hit_test_zero_area t point Ha). unfold on_vertex_lines.
    rewrite !andb_true_iff, !Z.eqb_eq. tauto.
  - exact flat_candidates_nil.
  - intros S fragment_run F ops vertex_run sc vt s Hf.
    unfold draw_rasterized. cbn [draw_rasterized_from].
    unfold draw_triangle, rasterize_triangle. cbn [fst].
    rewrite (proj2 (flat_candidates_nil _) Hf). reflexivity.
  - intros S fragment_run F ops vertex_run sc sc' vt s s' t Ha Hd.
    pose proof Hd as Hd0. unfold draw_rasterized in Hd. cbn [draw_rasterized_from] in Hd.
    destruct (draw_triangle fragment_run vertex_run (sc, s) vt) as [[sc1 s1]|] eqn:E;
      cbn [mbind option_bind] in Hd; [|discriminate].
    injection Hd as <- <-.
    unfold draw_triangle, rasterize_triangle in E. cbn [fst] in E. fold t in E.
    assert (Hw : written sc t (candidates (encapsulating_rectangle t))
                 = map (pixel_index (extent sc)) (degenerate_hits sc t)).
    { unfold written, degenerate_hits. f_equal. apply List.filter_ext. intros q.
      now rewrite (hit_test_zero_area t q Ha). }
    pose proof (raster_points_oblivious fragment_run t _ sc sc sc1 s s1 E eq_refl eq_refl)
      as (_ & _ & Ea & _).
    split; [exact Ea|]. split; [|split].
    + rewrite (raster_points_state fragment_run t _ sc sc1 s s1 E), Hw, length_map.
      reflexivity.
    + intros q Hq.
      assert (Hi : In (pixel_index (extent sc) q) (written sc t (candidates (encapsulating_rectangle t))))
        by (rewrite Hw; now apply in_map).
      destruct (raster_points_written_value fragment_run t _ sc sc1 s s1 _ E Hi) as [s0 Hs0].
      exists s0. unfold pixel_at. now rewrite Ea.
    + intros q Hin Hq.
      apply (draw_from_untouched fragment_run vertex_run sc q [vt] Hin sc sc1 s s1 Hd0 eq_refl).
      intros vt' [<-|[]] (Hc & Hh & Hi). apply Hq. unfold degenerate_hits.
      apply filter_In. split; [exact Hc|]. fold t in Hh.
      rewrite <- (hit_test_zero_area t q Ha), Hh, Hi. reflexivity.
  - split; vm_compute; reflexivity.
Qed.

(** C1 refuted: the collinear pixel-space triangle (0,0), (1,1), (2,2) is
    rasterized with two fragment-shader invocations and changes pixel (0,0). *)
Lemma zero_area_draws_pixels_C1_counterexample :
  let sc := SwapChain_new size4 in
  let t := pixel_triangle identity_vertex_shader sc degenerate_triangle in
  t = Triangle2D_new (Vector2_new 0 0) (Vector2_new 1 1) (Vector2_new 2 2) /\
  area t = 0 /\ collinear t /\
  exists sc' : SwapChain,
    draw_rasterized (counting_fragment RED) identity_vertex_shader sc [degenerate_triangle] 0%nat
      = Some (sc', 2%nat) /\
    pixel_at sc (Vector2_new 0 0) = Some BLACK /\ pixel_at sc' (Vector2_new 0 0) = Some RED /\
    sc' <> sc.
Proof.
  cbv zeta. split; [vm_compute; reflexivity|]. split; [vm_compute; reflexivity|].
  split.
  - exists 1, (-1), 0. vm_compute. split; [left; discriminate|]. auto.
  - eexists. split; [vm_compute; reflexivity|].
    split; [vm_compute; reflexivity|]. split; [vm_compute; reflexivity|].
    vm_compute. intros E. injection E as E. discriminate E.
Qed.

(* ------------------------------------------------------------------ *)
(** ** Instances of the theorems at concrete inputs *)

(** The [f32] fact that [resize_C9] assumes holds in the rational instance. *)
Lemma QF32_mul_zero (v : Q) : f_as_i32 (f_round (f_mul v (f_of_usize 0))) = 0.
Proof.
  destruct v as [n d]. simpl.
  unfold Q_as_i32, Q_round, Qmult, Qplus, Qle_bool, Qfloor; simpl.
  rewrite Z.mul_0_r. simpl.
  rewrite Z.div_small; [reflexivity|]. lia.
Qed.

Lemma zero_area_triangles_C1_witness :
  let sc := SwapChain_new size4 in
  let t := pixel_triangle identity_vertex_shader sc degenerate_triangle in
  area t = 0 /\ hit_test t (Vector2_new 1 1) = true /\
  degenerate_hits sc t = [Vector2_new 0 0; Vector2_new 1 1] /\
  2%nat = shader_steps (counting_fragment RED) (length (degenerate_hits sc t)) 0%nat /\
  pixel_at {| extent := extent sc; buffer := <[5%nat := RED]> (<[0%nat := RED]> (buffer sc)) |}
           (Vector2_new 2 2) = pixel_at sc (Vector2_new 2 2).
Proof.
  cbv zeta.
  assert (Ha : area (pixel_triangle identity_vertex_shader (SwapChain_new size4)
                       degenerate_triangle) = 0) by (vm_compute; reflexivity).
  assert (Hd : draw_rasterized (counting_fragment RED) identity_vertex_shader
                 (SwapChain_new size4) [degenerate_triangle] 0%nat
               = Some ({| extent := extent (SwapChain_new size4);
                          buffer := <[5%nat := RED]> (<[0%nat := RED]> (buffer (SwapChain_new size4))) |},
                       2%nat)) by (vm_compute; reflexivity).
  destruct (proj1 (proj2 (proj2 (proj2 zero_area_triangles_C1)))
              nat (counting_fragment RED) Q _ identity_vertex_shader (SwapChain_new size4) _
              degenerate_triangle 0%nat 2%nat Ha Hd) as (_ & Hs & _ & Hu).
  split; [exact Ha|]. split.
  - apply (proj1 zero_area_triangles_C1 _ (Vector2_new 1 1) Ha).
    vm_compute. split; [reflexivity|]. split; reflexivity.
  - split; [vm_compute; reflexivity|]. split; [exact Hs|].
    apply Hu; [vm_compute; reflexivity|].
    vm_compute. intros [E|[E|[]]]; discriminate E.
Defined.

Lemma hit_test_C3_witness :
  area (Triangle2D_new (Vector2_new 50 25) (Vector2_new 25 75) (Vector2_new 75 75)) <> 0 /\
  sub_area_sum (Triangle2D_new (Vector2_new 50 25) (Vector2_new 25 75) (Vector2_new 75 75))
               (Vector2_new 50 50)
    = area (Triangle2D_new (Vector2_new 50 25) (Vector2_new 25 75) (Vector2_new 75 75)).
Proof.
  split; [vm_compute; discriminate|].
  apply (proj2 (hit_test_C3
                  (Triangle2D_new (Vector2_new 50 25) (Vector2_new 25 75) (Vector2_new 75 75))
                  (Vector2_new 50 50))); [vm_compute; discriminate|].
  exists 2, 1, 1. vm_compute. repeat split; discriminate || reflexivity.
Defined.

Lemma draw_rasterized_last_triangle_wins_C6_witness :
  let sc := SwapChain_new size4 in
  let sc' := {| extent := extent sc;
                buffer := <[5%nat := Pixel_new 3 0 0 0xFF]> (<[0%nat := Pixel_new 2 0 0 0xFF]>
                            (buffer sc)) |} in
  draw_rasterized numbered_fragment identity_vertex_shader sc
    ([degenerate_triangle] ++ degenerate_triangle :: []) 0%nat = Some (sc', 4%nat) /\
  covers identity_vertex_shader sc degenerate_triangle (Vector2_new 0 0) /\
  exists sc1 s1 sc2 s2,
    draw_rasterized numbered_fragment identity_vertex_shader sc [degenerate_triangle] 0%nat
      = Some (sc1, s1) /\
    draw_triangle numbered_fragment identity_vertex_shader (sc1, s1) degenerate_triangle
      = Some (sc2, s2) /\
    pixel_at sc' (Vector2_new 0 0) = pixel_at sc2 (Vector2_new 0 0) /\
    (exists s0, pixel_at sc2 (Vector2_new 0 0) = Some (fst (numbered_fragment s0))) /\
    (forall buf : list Pixel, length buf = length (buffer sc1) ->
       exists sc2', draw_triangle numbered_fragment identity_vertex_shader
                      ({| extent := extent sc1; buffer := buf |}, s1) degenerate_triangle
                    = Some (sc2', s2) /\
                    pixel_at sc2' (Vector2_new 0 0) = pixel_at sc2 (Vector2_new 0 0)).
Proof.
  cbv zeta.
  assert (Hc : covers identity_vertex_shader (SwapChain_new size4) degenerate_triangle
                 (Vector2_new 0 0)).
  { unfold covers. vm_compute. split; [left; reflexivity|]. split; reflexivity. }
  split; [vm_compute; reflexivity|]. split; [exact Hc|].
  apply (draw_rasterized_last_triangle_wins_C6 numbered_fragment identity_vertex_shader
           (SwapChain_new size4) _ 0%nat 4%nat [degenerate_triangle] [] degenerate_triangle
           (Vector2_new 0 0)).
  - vm_compute. reflexivity.
  - exact Hc.
  - intros vt' [].
Defined.

Lemma draw_rasterized_overflow_C7_witness :
  wf (SwapChain_new size4) /\ is_point_inside (SwapChain_new size4) (Vector2_new 1 1) = true /\
  set_pixel (SwapChain_new size4) (Vector2_new 1 1) RED
    = Some {| extent := extent (SwapChain_new size4);
              buffer := <[5%nat := RED]> (buffer (SwapChain_new size4)) |}.
Proof.
  split; [reflexivity|]. split; [reflexivity|].
  apply (proj1 draw_rasterized_overflow_C7 (SwapChain_new size4) (Vector2_new 1 1) RED);
    reflexivity.
Defined.

Lemma swap_chain_invariant_C8_witness :
  wf (SwapChain_new size4) /\
  draw_rasterized (counting_fragment RED) identity_vertex_shader (SwapChain_new size4)
    [degenerate_triangle] 0%nat
    = Some ({| extent := extent (SwapChain_new size4);
               buffer := <[5%nat := RED]> (<[0%nat := RED]> (buffer (SwapChain_new size4))) |},
            2%nat) /\
  wf {| extent := extent (SwapChain_new size4);
        buffer := <[5%nat := RED]> (<[0%nat := RED]> (buffer (SwapChain_new size4))) |} /\
  wf (clear (SwapChain_new size4) RED).
Proof.
  assert (Hwf : wf (SwapChain_new size4)) by reflexivity.
  assert (Hd : draw_rasterized (counting_fragment RED) identity_vertex_shader
                 (SwapChain_new size4) [degenerate_triangle] 0%nat
               = Some ({| extent := extent (SwapChain_new size4);
                          buffer := <[5%nat := RED]> (<[0%nat := RED]>
                                      (buffer (SwapChain_new size4))) |}, 2%nat))
    by (vm_compute; reflexivity).
  split; [exact Hwf|]. split; [exact Hd|]. split.
  - exact (proj2 (proj2 (proj2 (proj2 swap_chain_invariant_C8))) nat (counting_fragment RED)
             Q QF32 identity_vertex_shader _ _ _ _ _ Hwf Hd).
  - exact (proj1 (proj2 swap_chain_invariant_C8) _ RED Hwf).
Defined.

Lemma resize_C9_witness :
  (forall v : Q, f_as_i32 (f_round (f_mul v (f_of_usize 0))) = 0) /\
  let sc0 := resize_with_clear_color (SwapChain_new size4)
               {| size_width := 0; size_height := 0 |} BLACK in
  draw_rasterized (counting_fragment RED) identity_vertex_shader sc0
    [example_triangle; huge_triangle] 0%nat = Some (sc0, 0%nat) /\
  (forall color' : Pixel, clear sc0 color' = sc0).
Proof.
  split; [exact QF32_mul_zero|].
  exact (proj2 (proj2 (proj2 resize_C9)) Q QF32 QF32_mul_zero nat (counting_fragment RED)
           identity_vertex_shader (SwapChain_new size4) BLACK
           [example_triangle; huge_triangle] 0%nat).
Defined.

(* ================================================================== *)
(** * Further properties of the code *)

(* ------------------------------------------------------------------ *)
(** ** Vertex order *)

Lemma area_rot (v0 v1 v2 : Vector2 Z) :
  area (Triangle2D_new v1 v2 v0) = area (Triangle2D_new v0 v1 v2).
Proof. destruct v0 as [x0 y0], v1 as [x1 y1], v2 as [x2 y2]. unfold area; simpl. f_equal. ring. Qed.

Lemma area_swap23 (v0 v1 v2 : Vector2 Z) :
  area (Triangle2D_new v0 v2 v1) = area (Triangle2D_new v0 v1 v2).
Proof.
  destruct v0 as [x0 y0], v1 as [x1 y1], v2 as [x2 y2]. unfold area; simpl.
  rewrite <- Z.abs_opp. f_equal. ring.
Qed.

Lemma area_swap12 (v0 v1 v2 : Vector2 Z) :
  area (Triangle2D_new v1 v0 v2) = area (Triangle2D_new v0 v1 v2).
Proof. rewrite <- (area_rot v1 v0 v2). apply area_swap23. Qed.


(* ------------------------------------------------------------------ *)
(** ** Coordinates for which the [i32] arithmetic cannot overflow *)

Lemma checked_in (v : Z) : -2147483648 <= v <= 2147483647 -> checked v = Some v.
Proof.
  intros Hv. unfold checked, i32_min, i32_max.
  replace (- 2 ^ 31 <=? v) with true by (symmetry; apply Z.leb_le; simpl; lia).
  replace (v <=? 2 ^ 31 - 1) with true by (symmetry; apply Z.leb_le; simpl; lia).
  reflexivity.
Qed.

Lemma abs_mul_le (u v m : Z) : Z.abs u <= m -> Z.abs v <= m -> Z.abs (u * v) <= m * m.
Proof. intros Hu Hv. rewrite Z.abs_mul. apply Z.mul_le_mono_nonneg; lia. Qed.

Lemma area_i32_within (t : Triangle2D) :
  triangle_within overflow_free_bound t ->
  area_i32 t = Some (area t) /\ area t <= 648000000.
Proof.
  destruct t as [[x0 y0] [x1 y1] [x2 y2]].
  unfold triangle_within, within, overflow_free_bound; cbn [x y _0 _1 _2].
  intros ((Hx0 & Hy0) & (Hx1 & Hy1) & (Hx2 & Hy2)).
  pose proof (abs_mul_le (x1 - x0) (y2 - y0) 18000 ltac:(lia) ltac:(lia)) as M1.
  pose proof (abs_mul_le (x2 - x0) (y1 - y0) 18000 ltac:(lia) ltac:(lia)) as M2.
  unfold area_i32, area; cbn [x y _0 _1 _2].
  repeat (rewrite checked_in by lia; cbn [mbind option_bind]).
  split; [reflexivity | lia].
Qed.

Lemma hit_test_i32_within (t : Triangle2D) (point : Vector2 Z) :
  triangle_within overflow_free_bound t -> within overflow_free_bound point ->
  hit_test_i32 t point = Some (hit_test t point).
Proof.
  intros Ht Hp. pose proof Ht as (H0 & H1 & H2).
  destruct (area_i32_within t Ht) as [E0 B0].
  destruct (area_i32_within (Triangle2D_new point (_0 t) (_1 t))) as [E1 B1];
    [unfold triangle_within; auto|].
  destruct (area_i32_within (Triangle2D_new point (_1 t) (_2 t))) as [E2 B2];
    [unfold triangle_within; auto|].
  destruct (area_i32_within (Triangle2D_new point (_2 t) (_0 t))) as [E3 B3];
    [unfold triangle_within; auto|].
  pose proof (area_nonneg (Triangle2D_new point (_0 t) (_1 t))).
  pose proof (area_nonneg (Triangle2D_new point (_1 t) (_2 t))).
  pose proof (area_nonneg (Triangle2D_new point (_2 t) (_0 t))).
  unfold hit_test_i32. rewrite E0, E1, E2, E3. cbn [mbind option_bind].
  rewrite checked_in by lia. cbn [mbind option_bind].
  rewrite checked_in by lia. reflexivity.
Qed.

(** X2: when the three vertices and the point have coordinates in
    [-9000, 9000], none of the [i32] operations of [Triangle2D::area] and
    [hit_test] overflows: the checked computation returns the exact result. *)
Theorem hit_test_i32_no_overflow_X2 (t : Triangle2D) (point : Vector2 Z) :
  triangle_within overflow_free_bound t -> within overflow_free_bound point ->
  area_i32 t = Some (area t) /\ hit_test_i32 t point = Some (hit_test t point).
Proof.
  intros Ht Hp. split; [apply (area_i32_within t Ht) | apply (hit_test_i32_within t point Ht Hp)].
Qed.

Lemma candidates_within (B : Z) (t : Triangle2D) :
  triangle_within B t -> List.Forall (within B) (candidates (encapsulating_rectangle t)).
Proof.
  destruct t as [[x0 y0] [x1 y1] [x2 y2]].
  unfold triangle_within, within; cbn [x y _0 _1 _2].
  intros ((Hx0 & Hy0) & (Hx1 & Hy1) & (Hx2 & Hy2)).
  apply List.Forall_forall. intros q Hq. apply In_candidates in Hq.
  unfold encapsulating_rectangle, min_x, min_y, max_x, max_y in Hq. cbn [x y _0 _1 _2 lefttopmost rightbottommost] in Hq.
  rewrite !min_Zmin, !max_Zmax in Hq. unfold within. lia.
Qed.

(** Two triangles whose checked [hit_test] agrees on every point of a list
    make the same pass over it. *)
Lemma raster_points_hit_ext {S : Type} (fragment_run : S -> Pixel * S) (t t' : Triangle2D)
    (qs : list (Vector2 Z)) :
  (forall q, In q qs -> hit_test_i32 t' q = hit_test_i32 t q) ->
  forall st, raster_points fragment_run t' qs st = raster_points fragment_run t qs st.
Proof.
  induction qs as [|q qs IH]; intros Hq st; [reflexivity|].
  cbn [raster_points]. unfold raster_point. destruct st as [sc s].
  rewrite (Hq q (or_introl eq_refl)).
  destruct (hit_test_i32 t q) as [[|]|]; cbn [mbind option_bind]; [| |reflexivity].
  - destruct (is_point_inside sc q); [|apply IH; intros; apply Hq; now right].
    destruct (fragment_run s) as [col s1]. destruct (set_pixel sc q col); [|reflexivity].
    cbn [mbind option_bind]. apply IH. intros; apply Hq; now right.
  - apply IH. intros; apply Hq; now right.
Qed.

(** X1: the vertex order does not matter. In exact arithmetic, [area],
    [hit_test] and [encapsulating_rectangle] are unchanged by rotating the
    vertices or swapping the first two (which together generate all six
    orders). In the program's checked [i32] pass, for pixel-space
    coordinates in [-9000, 9000], the pass over the rotated or swapped
    triangle is the same as the pass over the triangle, so both windings are
    filled alike (no back-face culling). Outside that range the order can
    matter: the [i32] [area] of (0,0), (46341,46341), (0,0) is 0 but panics
    after a rotation. *)
Theorem triangle_vertex_order_X1 :
  (forall (t : Triangle2D) (point : Vector2 Z),
     (area (rotate_vertices t) = area t /\
      hit_test (rotate_vertices t) point = hit_test t point /\
      encapsulating_rectangle (rotate_vertices t) = encapsulating_rectangle t) /\
     (area (swap_vertices t) = area t /\
      hit_test (swap_vertices t) point = hit_test t point /\
      encapsulating_rectangle (swap_vertices t) = encapsulating_rectangle t)) /\
  (forall (S : Type) (fragment_run : S -> Pixel * S) (t : Triangle2D) (st : SwapChain * S),
     triangle_within overflow_free_bound t ->
     rasterize_triangle fragment_run (rotate_vertices t) st = rasterize_triangle fragment_run t st /\
     rasterize_triangle fragment_run (swap_vertices t) st = rasterize_triangle fragment_run t st) /\
  (area_i32 (Triangle2D_new (Vector2_new 0 0) (Vector2_new 46341 46341) (Vector2_new 0 0)) = Some 0 /\
   area_i32 (rotate_vertices
               (Triangle2D_new (Vector2_new 0 0) (Vector2_new 46341 46341) (Vector2_new 0 0))) = None).
Proof.
  assert (Hz : forall (t : Triangle2D) (point : Vector2 Z),
     (area (rotate_vertices t) = area t /\
      hit_test (rotate_vertices t) point = hit_test t point /\
      encapsulating_rectangle (rotate_vertices t) = encapsulating_rectangle t) /\
     (area (swap_vertices t) = area t /\
      hit_test (swap_vertices t) point = hit_test t point /\
      encapsulating_rectangle (swap_vertices t) = encapsulating_rectangle t)).
  { intros t point.
    destruct t as [v0 v1 v2]. unfold rotate_vertices, swap_vertices. cbn [_0 _1 _2].
    split; split; [| split | | split].
    - apply area_rot.
    - unfold hit_test. cbv zeta. cbn [_0 _1 _2]. rewrite (area_rot v0 v1 v2). f_equal. lia.
    - unfold encapsulating_rectangle, min_x, min_y, max_x, max_y. cbn [_0 _1 _2].
      rewrite !min_Zmin, !max_Zmax. f_equal; f_equal; lia.
    - apply area_swap12.
    - unfold hit_test. cbv zeta. cbn [_0 _1 _2].
      rewrite (area_swap12 v0 v1 v2), (area_swap23 point v0 v1), (area_swap23 point v2 v0),
        (area_swap23 point v1 v2). f_equal. lia.
    - unfold encapsulating_rectangle, min_x, min_y, max_x, max_y. cbn [_0 _1 _2].
      rewrite !min_Zmin, !max_Zmax. f_equal; f_equal; lia. }
  split; [exact Hz|]. split; [|split; reflexivity].
  intros S fragment_run t st Ht.
  assert (Hr : triangle_within overflow_free_bound (rotate_vertices t) /\
               triangle_within overflow_free_bound (swap_vertices t)).
  { destruct Ht as (H0 & H1 & H2). unfold triangle_within, rotate_vertices, swap_vertices.
    cbn [_0 _1 _2]. tauto. }
  assert (Hc := candidates_within _ _ Ht). rewrite List.Forall_forall in Hc.
  destruct (Hz t (Vector2_new 0 0)) as [(_ & _ & Er) (_ & _ & Es)].
  unfold rasterize_triangle. rewrite Er, Es. split; apply raster_points_hit_ext; intros q Hq;
    rewrite !hit_test_i32_within by (apply Hc in Hq; tauto);
    f_equal; apply (Hz t q).
Qed.

Section NoPanic.

Context {S : Type} (fragment_run : S -> Pixel * S).

Lemma raster_points_total (t : Triangle2D) (qs : list (Vector2 Z)) :
  triangle_within overflow_free_bound t -> List.Forall (within overflow_free_bound) qs ->
  forall (sc : SwapChain) (s : S), wf sc ->
  exists sc' s', raster_points fragment_run t qs (sc, s) = Some (sc', s') /\
                 extent sc' = extent sc /\ wf sc'.
Proof.
  intros Ht. induction 1 as [|q qs Hq Hqs IH]; intros sc s Hwf.
  - exists sc, s. auto.
  - cbn [raster_points]. unfold raster_point.
    rewrite (hit_test_i32_within t q Ht Hq).
    destruct (hit_test t q); [destruct (is_point_inside sc q) eqn:Ei|]; cbn [mbind option_bind].
    + destruct (fragment_run s) as [col s1].
      rewrite (set_pixel_inside sc q col Hwf Ei). cbn [mbind option_bind].
      destruct (IH {| extent := extent sc; buffer := <[pixel_index (extent sc) q:=col]> (buffer sc) |}
                  s1) as (sc' & s' & E & Ee & Hwf');
        [unfold wf in *; simpl; now rewrite length_insert|].
      exists sc', s'. split; [exact E|]. split; [exact Ee|exact Hwf'].
    + apply IH; exact Hwf.
    + apply IH; exact Hwf.
Qed.

Context `{F32Ops F} (vertex_run : Vector2 F -> Vector2 F).

Lemma draw_from_total (sc : SwapChain) (vs : list (TriangleVertices F)) :
  (forall vt, In vt vs -> triangle_within overflow_free_bound (pixel_triangle vertex_run sc vt)) ->
  forall (sc2 : SwapChain) (s2 : S), wf sc2 -> extent sc2 = extent sc ->
  exists sc' s', draw_rasterized_from fragment_run vertex_run vs (sc2, s2) = Some (sc', s') /\
                 extent sc' = extent sc /\ wf sc'.
Proof.
  induction vs as [|vt vs IH]; intros Hb sc2 s2 Hwf Ee.
  - exists sc2, s2. auto.
  - cbn [draw_rasterized_from]. unfold draw_triangle, rasterize_triangle. cbn [fst].
    rewrite (pixel_triangle_extent vertex_run sc sc2 vt Ee).
    assert (Ht := Hb vt (or_introl eq_refl)).
    destruct (raster_points_total _ _ Ht (candidates_within _ _ Ht) sc2 s2 Hwf)
      as (sc3 & s3 & E3 & Ee3 & Hwf3).
    rewrite E3. cbn [mbind option_bind].
    apply IH; [intros vt' Hvt'; apply Hb; now right | exact Hwf3 | congruence].
Qed.

End NoPanic.

(** X3: on a well-formed swap chain, [draw_rasterized] does not panic when
    every triangle's pixel-space vertices have coordinates in
    [-9000, 9000]. So a panic needs a triangle with a pixel-space
    coordinate outside that range (an [i32] overflow in [hit_test]). *)
Theorem draw_rasterized_no_panic_X3 {S : Type} (fragment_run : S -> Pixel * S)
    `{F32Ops F} (vertex_run : Vector2 F -> Vector2 F) (sc : SwapChain)
    (vertices : list (TriangleVertices F)) (s : S) :
  wf sc ->
  (forall vt, In vt vertices ->
     triangle_within overflow_free_bound (pixel_triangle vertex_run sc vt)) ->
  exists sc' s', draw_rasterized fragment_run vertex_run sc vertices s = Some (sc', s').
Proof.
  intros Hwf Hb.
  destruct (draw_from_total fragment_run vertex_run sc vertices Hb sc s Hwf eq_refl)
    as (sc' & s' & E & _). exists sc', s'. exact E.
Qed.

(* ------------------------------------------------------------------ *)
(** ** What a draw writes, and how draws compose *)

(** X4: [draw_rasterized] leaves unchanged every pixel of the extent that
    none of the triangles covers (tests and finds inside). *)
Theorem draw_rasterized_untouched_X4 {S : Type} (fragment_run : S -> Pixel * S)
    `{F32Ops F} (vertex_run : Vector2 F -> Vector2 F) (sc sc' : SwapChain)
    (vertices : list (TriangleVertices F)) (s s' : S) (point : Vector2 Z) :
  draw_rasterized fragment_run vertex_run sc vertices s = Some (sc', s') ->
  is_point_inside sc point = true ->
  (forall vt, In vt vertices -> ~ covers vertex_run sc vt point) ->
  pixel_at sc' point = pixel_at sc point.
Proof.
  intros Hd Hin Hnc.
  exact (draw_from_untouched fragment_run vertex_run sc point vertices Hin sc sc' s s' Hd
           eq_refl Hnc).
Qed.

Lemma Vector2_Z_eq_dec (p q : Vector2 Z) : {p = q} + {p <> q}.
Proof. decide equality; apply Z.eq_dec. Defined.

Lemma covers_dec `{F32Ops F} (vertex_run : Vector2 F -> Vector2 F) (sc : SwapChain)
    (vt : TriangleVertices F) (point : Vector2 Z) :
  covers vertex_run sc vt point \/ ~ covers vertex_run sc vt point.
Proof.
  unfold covers.
  destruct (hit_test (pixel_triangle vertex_run sc vt) point);
    [|right; intros (_ & E & _); discriminate E].
  destruct (is_point_inside sc point); [|right; intros (_ & _ & E); discriminate E].
  destruct (in_dec Vector2_Z_eq_dec point
              (candidates (encapsulating_rectangle (pixel_triangle vertex_run sc vt))));
    [left; auto | right; intros (Hc & _); contradiction].
Qed.

Lemma exists_covers_dec `{F32Ops F} (vertex_run : Vector2 F -> Vector2 F) (sc : SwapChain)
    (vs : list (TriangleVertices F)) (point : Vector2 Z) :
  (exists vt, In vt vs /\ covers vertex_run sc vt point) \/
  (forall vt, In vt vs -> ~ covers vertex_run sc vt point).
Proof.
  induction vs as [|vt vs [(vt' & Hin & Hc)|Hn]]; [right; intros _ []| |].
  - left. exists vt'. split; [now right|exact Hc].
  - destruct (covers_dec vertex_run sc vt point) as [Hc|Hc].
    + left. exists vt. split; [now left|exact Hc].
    + right. intros vt' [<-|Hin]; [exact Hc|now apply Hn].
Qed.

(** Every index below [width * height] is the index of an in-extent point. *)
Lemma pixel_index_onto (sc : SwapChain) (i : nat) :
  (i < N.to_nat (width (extent sc) * height (extent sc)))%nat ->
  exists point, is_point_inside sc point = true /\ pixel_index (extent sc) point = i.
Proof.
  destruct sc as [[w h] buf]. cbn [extent width height]. intros Hi.
  set (n := N.of_nat i).
  assert (Hn : (n < w * h)%N) by lia.
  assert (Hw : w <> 0%N) by (intros E; rewrite E in Hn; lia).
  assert (Hu : forall m : N, i32_as_usize (Z.of_N m) = m).
  { intros m. unfold i32_as_usize. destruct (Z.ltb_spec (Z.of_N m) 0); [lia|]. apply N2Z.id. }
  exists (Vector2_new (Z.of_N (n mod w)) (Z.of_N (n / w))).
  unfold is_point_inside, pixel_index. cbn [x y extent width height]. rewrite !Hu.
  pose proof (N.mod_lt n w Hw). pose proof (N.div_mod n w Hw) as Ed.
  assert (Hd : (n / w < h)%N).
  { destruct (N.lt_ge_cases (n / w) h) as [Hl|Hl]; [exact Hl|]. exfalso.
    assert (Hm : (w * h <= w * (n / w))%N) by (apply N.mul_le_mono_l; exact Hl).
    set (q := (n / w)%N) in *. set (r := (n mod w)%N) in *. clearbody q r. lia. }
  split.
  - rewrite !andb_true_iff, !Z.leb_le, !N.ltb_lt. split; [split; [split|]|]; [apply N2Z.is_nonneg | apply N2Z.is_nonneg | assumption | exact Hd].
  - rewrite (N.mul_comm (n / w) w), <- Ed. unfold n. apply Nat2N.id.
Qed.

Section ConstantShader.

Context `{F32Ops F} (vertex_run : Vector2 F -> Vector2 F) (color : Pixel).

Lemma constant_draw_covered (sc : SwapChain) (point : Vector2 Z) (vs : list (TriangleVertices F)) :
  is_point_inside sc point = true ->
  forall (sc2 sc' : SwapChain) (s2 s' : unit),
  draw_rasterized_from (constant_fragment color) vertex_run vs (sc2, s2) = Some (sc', s') ->
  extent sc2 = extent sc ->
  (exists vt, In vt vs /\ covers vertex_run sc vt point) ->
  pixel_at sc' point = Some color.
Proof.
  intros Hin. induction vs as [|vt vs IH]; intros sc2 sc' s2 s' Hd Ee Hc;
    [destruct Hc as (? & [] & _)|].
  cbn [draw_rasterized_from] in Hd.
  destruct (draw_triangle (constant_fragment color) vertex_run (sc2, s2) vt) as [[sc3 s3]|] eqn:E3;
    cbn [mbind option_bind] in Hd; [|discriminate].
  pose proof (draw_triangle_shape (constant_fragment color) vertex_run sc2 sc3 s2 s3 vt E3)
    as [Ee3 _].
  destruct (exists_covers_dec vertex_run sc vs point) as [Hc'|Hn].
  - exact (IH sc3 sc' s3 s' Hd ltac:(congruence) Hc').
  - assert (Hcv : covers vertex_run sc vt point).
    { destruct Hc as (vt' & [<-|Hv] & Hc); [exact Hc|]. exfalso. exact (Hn vt' Hv Hc). }
    rewrite (draw_from_untouched (constant_fragment color) vertex_run sc point vs Hin sc3 sc' s3 s'
               Hd ltac:(congruence) Hn).
    unfold draw_triangle, rasterize_triangle in E3. cbn [fst] in E3.
    rewrite (pixel_triangle_extent vertex_run sc sc2 vt Ee) in E3.
    destruct Hcv as (Hcand & Hhit & Hi).
    set (T := pixel_triangle vertex_run sc vt) in *.
    assert (Hw : In (pixel_index (extent sc2) point)
                    (written sc2 T (candidates (encapsulating_rectangle T)))).
    { unfold written. apply in_map, filter_In. split; [exact Hcand|].
      rewrite Hhit, (is_point_inside_extent sc sc2 point Ee), Hi. reflexivity. }
    destruct (raster_points_written_value (constant_fragment color) T _ sc2 sc3 s2 s3 _ E3 Hw)
      as [s0 Hs0].
    unfold pixel_at. rewrite Ee3. exact Hs0.
Qed.

End ConstantShader.

(** X5: with a fragment shader that always returns [color], a draw that
    completes leaves [color] at every pixel of the extent that some triangle
    covers and the previous value at every other pixel. So on a well-formed
    swap chain two completed draws whose triangles cover the same pixels give
    the same swap chain, whatever the triangles' order and however often a
    pixel is covered (drawing a list twice is drawing it once). *)
Theorem constant_shader_draw_X5 `{F32Ops F} (vertex_run : Vector2 F -> Vector2 F)
    (color : Pixel) (sc sc1 sc2 : SwapChain) (vertices1 vertices2 : list (TriangleVertices F)) :
  draw_rasterized (constant_fragment color) vertex_run sc vertices1 tt = Some (sc1, tt) ->
  (forall point, is_point_inside sc point = true ->
     ((exists vt, In vt vertices1 /\ covers vertex_run sc vt point) ->
        pixel_at sc1 point = Some color) /\
     ((forall vt, In vt vertices1 -> ~ covers vertex_run sc vt point) ->
        pixel_at sc1 point = pixel_at sc point)) /\
  (wf sc ->
   draw_rasterized (constant_fragment color) vertex_run sc vertices2 tt = Some (sc2, tt) ->
   (forall point, is_point_inside sc point = true ->
      (exists vt, In vt vertices1 /\ covers vertex_run sc vt point) <->
      (exists vt, In vt vertices2 /\ covers vertex_run sc vt point)) ->
   sc2 = sc1).
Proof.
  intros Hd1.
  assert (Hpix : forall (vs : list (TriangleVertices F)) (sc' : SwapChain),
            draw_rasterized (constant_fragment color) vertex_run sc vs tt = Some (sc', tt) ->
            forall point, is_point_inside sc point = true ->
            ((exists vt, In vt vs /\ covers vertex_run sc vt point) ->
               pixel_at sc' point = Some color) /\
            ((forall vt, In vt vs -> ~ covers vertex_run sc vt point) ->
               pixel_at sc' point = pixel_at sc point)).
  { intros vs sc' Hd point Hin. split.
    - apply (constant_draw_covered vertex_run color sc point vs Hin sc sc' tt tt Hd eq_refl).
    - apply (draw_from_untouched (constant_fragment color) vertex_run sc point vs Hin
               sc sc' tt tt Hd eq_refl). }
  split; [exact (Hpix vertices1 sc1 Hd1)|].
  intros Hwf Hd2 Hcov.
  destruct (draw_from_shape (constant_fragment color) vertex_run vertices1 sc sc1 tt tt Hd1)
    as [Ee1 Le1].
  destruct (draw_from_shape (constant_fragment color) vertex_run vertices2 sc sc2 tt tt Hd2)
    as [Ee2 Le2].
  destruct sc1 as [ext1 buf1], sc2 as [ext2 buf2]. cbn [extent buffer] in *. subst ext1 ext2.
  f_equal. apply list_eq. intros i.
  destruct (Nat.lt_ge_cases i (length (buffer sc))) as [Hi|Hi].
  - rewrite Hwf in Hi. destruct (pixel_index_onto sc i Hi) as (p & Hp & <-).
    pose proof (Hpix vertices1 _ Hd1 p Hp) as [C1 U1].
    pose proof (Hpix vertices2 _ Hd2 p Hp) as [C2 U2].
    unfold pixel_at in C1, U1, C2, U2. cbn [extent buffer] in C1, U1, C2, U2.
    destruct (exists_covers_dec vertex_run sc vertices1 p) as [Hc|Hn].
    + rewrite C1, C2; [reflexivity | apply Hcov; assumption | exact Hc].
    + rewrite U1, U2; [reflexivity | |exact Hn].
      intros vt Hvt Hc.
      destruct (proj2 (Hcov p Hp) (ex_intro _ vt (conj Hvt Hc))) as (vt' & Hvt' & Hc').
      exact (Hn vt' Hvt' Hc').
  - rewrite !lookup_ge_None_2 by lia. reflexivity.
Qed.


(** X6: a draw that does not panic invokes the fragment shader exactly
    [fragment_calls] times: once for each triangle and each candidate point
    of its rectangle that passes [hit_test] and [is_point_inside], and at no
    other time. *)
Theorem draw_rasterized_fragment_calls_X6 {S : Type} (fragment_run : S -> Pixel * S)
    `{F32Ops F} (vertex_run : Vector2 F -> Vector2 F) (sc sc' : SwapChain)
    (vertices : list (TriangleVertices F)) (s s' : S) :
  draw_rasterized fragment_run vertex_run sc vertices s = Some (sc', s') ->
  s' = shader_steps fragment_run (fragment_calls vertex_run sc vertices) s.
Proof. intros Hd. exact (draw_from_state fragment_run vertex_run sc vertices sc sc' s s' eq_refl Hd). Qed.

(* ------------------------------------------------------------------ *)
(** ** The loops over the rectangle *)

Lemma NoDup_map_inj {A B : Type} (f : A -> B) (l : list A) :
  (forall u v, f u = f v -> u = v) -> List.NoDup l -> List.NoDup (map f l).
Proof.
  intros Hf. induction 1 as [|u l Hu Hl IH]; simpl; constructor; [|exact IH].
  rewrite in_map_iff. intros (v & E & Hv). apply Hf in E. subst. contradiction.
Qed.

Lemma Range_NoDup (lo hi : Z) : List.NoDup (Range lo hi).
Proof. unfold Range. apply NoDup_map_inj; [intros u v E; lia | apply seq_NoDup]. Qed.

Lemma length_Range (lo hi : Z) : length (Range lo hi) = Z.to_nat (hi - lo).
Proof. unfold Range. now rewrite length_map, length_seq. Qed.

(** X7: the nested loops of [draw_rasterized] visit each point of the
    rectangle at most once, [(max_x - min_x) * (max_y - min_y)] points in
    all (0 when either range is empty). *)
Theorem candidates_NoDup_X7 (r : Rectangle2D) :
  NoDup (candidates r) /\
  length (candidates r) = (length (x_range r) * length (y_range r))%nat /\
  length (x_range r) = Z.to_nat (x (rightbottommost r) - x (lefttopmost r)) /\
  length (y_range r) = Z.to_nat (y (rightbottommost r) - y (lefttopmost r)).
Proof.
  unfold candidates. split; [|split; [|split; apply length_Range]].
  - apply NoDup_ListNoDup. pose proof (Range_NoDup (y (lefttopmost r)) (y (rightbottommost r))) as Hy.
    unfold y_range. induction Hy as [|yy ys Hyy Hys IH]; [constructor|].
    cbn [flat_map]. apply List.NoDup_app; [| exact IH |].
    + apply NoDup_map_inj; [intros u v E; now injection E | apply Range_NoDup].
    + intros p Hp Hp'. apply in_map_iff in Hp as (xx & <- & _).
      apply in_flat_map in Hp' as (yy' & Hyy' & Hp').
      apply in_map_iff in Hp' as (xx' & E & _). injection E as _ <-. contradiction.
  - unfold y_range. induction (Range (y (lefttopmost r)) (y (rightbottommost r))) as [|yy ys IH];
      [simpl; lia|].
    cbn [flat_map length]. rewrite length_app, length_map, IH. lia.
Qed.

(** X10: a triangle whose three pixel-space vertices share their x
    coordinate, or share their y coordinate, is not rasterized at all: the
    half-open ranges are empty, so no point is tested, the fragment shader
    is not called and nothing is written. *)
Theorem flat_triangle_no_fragments_X10 {S : Type} (fragment_run : S -> Pixel * S)
    (t : Triangle2D) (st : SwapChain * S) :
  (x (_1 t) = x (_0 t) /\ x (_2 t) = x (_0 t)) \/
  (y (_1 t) = y (_0 t) /\ y (_2 t) = y (_0 t)) ->
  rasterize_triangle fragment_run t st = Some st.
Proof.
  destruct t as [[x0 y0] [x1 y1] [x2 y2]]. cbn [x y _0 _1 _2].
  unfold rasterize_triangle, candidates, x_range, y_range, encapsulating_rectangle,
    min_x, min_y, max_x, max_y. cbn [x y _0 _1 _2 lefttopmost rightbottommost].
  rewrite !min_Zmin, !max_Zmax.
  assert (Hnil : forall v : Z, Range v v = []) by (intros v; unfold Range; now rewrite Z.sub_diag).
  intros [[-> ->] | [-> ->]]; rewrite !Z.min_id, !Z.max_id, Hnil; [|reflexivity].
  assert (E : forall l : list Z,
             flat_map (fun yy : Z => map (fun xx : Z => Vector2_new xx yy) []) l = [])
    by (induction l; simpl; auto).
  rewrite E. reflexivity.
Qed.

(* ------------------------------------------------------------------ *)
(** ** [clear] *)

Lemma map_const_length {A B : Type} (c : B) (l1 l2 : list A) :
  length l1 = length l2 -> map (fun _ => c) l1 = map (fun _ => c) l2.
Proof.
  revert l2. induction l1 as [|u l1 IH]; intros [|v l2] E; simpl in *; try discriminate;
    [reflexivity|]. f_equal. apply IH. lia.
Qed.

Lemma map_const_replicate {A B : Type} (c : B) (l : list A) :
  map (fun _ => c) l = replicate (length l) c.
Proof. induction l as [|u l IH]; simpl; [reflexivity|]. now rewrite IH. Qed.

(** X8: only the last [clear] counts, and a [clear] erases every effect of
    a preceding [draw_rasterized] that did not panic. *)
Theorem clear_last_wins_X8 :
  (forall (sc : SwapChain) (color1 color2 : Pixel),
     clear (clear sc color1) color2 = clear sc color2) /\
  (forall (S : Type) (fragment_run : S -> Pixel * S) (F : Type) (ops : F32Ops F)
          (vertex_run : Vector2 F -> Vector2 F) (sc sc' : SwapChain)
          (vertices : list (TriangleVertices F)) (s s' : S) (color : Pixel),
     draw_rasterized fragment_run vertex_run sc vertices s = Some (sc', s') ->
     clear sc' color = clear sc color).
Proof.
  split.
  - intros sc color1 color2. unfold clear. simpl. f_equal. now rewrite map_map.
  - intros S fragment_run F ops vertex_run sc sc' vertices s s' color Hd.
    apply draw_from_shape in Hd as [Ee Le]. unfold clear. rewrite Ee.
    f_equal. now apply map_const_length.
Qed.

(** X9: on a swap chain whose buffer has [width * height] pixels, [clear]
    gives the same swap chain as [resize_with_clear_color] to its own size;
    [SwapChain::new] is a resize with [Pixel::BLACK], whatever the swap chain. *)
Theorem clear_is_resize_X9 :
  (forall (sc : SwapChain) (color : Pixel),
     wf sc -> clear sc color = resize_with_clear_color sc (extent_size (extent sc)) color) /\
  (forall (sc : SwapChain) (size : LogicalSize),
     SwapChain_new size = resize_with_clear_color sc size BLACK).
Proof.
  split; [|reflexivity].
  intros [[w h] buf] color Hwf. unfold wf in Hwf. simpl in Hwf.
  unfold clear, resize_with_clear_color, extent_size, create_pixel_buffer. simpl.
  now rewrite map_const_replicate, Hwf.
Qed.

(* ------------------------------------------------------------------ *)
(** ** [Vector3] *)

(** X11: with exact arithmetic (the rational instance, i.e. no rounding),
    [Vector3::cross] and the [*] operator are anti-commutative, [a × a] is
    the zero vector, and [a × b] is orthogonal to both [a] and [b]. *)
Theorem vector3_cross_exact_X11 (u v : Vector3.Vector3 Q) :
  (Vector3.x (Vector3.mul u v) == - Vector3.x (Vector3.cross v u) /\
   Vector3.y (Vector3.mul u v) == - Vector3.y (Vector3.cross v u) /\
   Vector3.z (Vector3.mul u v) == - Vector3.z (Vector3.cross v u))%Q /\
  (Vector3.x (Vector3.cross u u) == 0 /\ Vector3.y (Vector3.cross u u) == 0 /\
   Vector3.z (Vector3.cross u u) == 0)%Q /\
  (Vector3.dot u (Vector3.mul u v) == 0 /\ Vector3.dot v (Vector3.mul u v) == 0)%Q.
Proof.
  destruct u as [ux uy uz], v as [vx vy vz].
  unfold Vector3.mul, Vector3.cross, Vector3.dot, f_sub, QF32Sub. simpl.
  split; [|split]; [split; [|split] | split; [|split] | split]; ring.
Qed.

(* ------------------------------------------------------------------ *)
(** ** [Surface::present] and [SwapChain::present] *)

Lemma usize_as_i32_small (v : N) : (v <= 2147483647)%N -> usize_as_i32 v = Z.of_N v.
Proof.
  intros Hv. unfold usize_as_i32. change (2 ^ 32) with 4294967296. change (2 ^ 31) with 2147483648.
  rewrite Z.mod_small by lia. destruct (Z.ltb_spec (Z.of_N v) 2147483648); lia.
Qed.

Lemma i32_max_value_usize_eq : i32_max_value_usize = 2147483647%N.
Proof. reflexivity. Qed.

(** X12: [SwapChain::present] returns [Err(ImageTooLarge)] exactly when the
    width or the height exceeds [i32::MAX], whatever the GDI calls do (they
    are not reached then). *)
Theorem present_too_large_X12 (StretchDIBits : StretchDIBitsCall -> Z)
    (ValidateRect : Z -> bool) (GDI_ERROR : Z) (sc : SwapChain) (surface : Surface) :
  SwapChain_present StretchDIBits ValidateRect GDI_ERROR sc surface = Some (Err ImageTooLarge) <->
  (2147483647 < width (extent sc) \/ 2147483647 < height (extent sc))%N.
Proof.
  unfold SwapChain_present, Surface_present. cbv zeta. rewrite i32_max_value_usize_eq.
  destruct (N.ltb_spec 2147483647 (width (extent sc))); [split; auto|].
  destruct (N.ltb_spec 2147483647 (height (extent sc))); [split; auto|].
  split; [|lia].
  destruct (present_header (extent sc)); [|discriminate].
  repeat match goal with |- context [if ?cond then _ else _] => destruct cond end;
    discriminate.
Qed.

(** X13: for an extent whose sides fit in [i32], [present] never returns an
    error: the [as i32] casts are exact, the header describes a top-down
    image ([biWidth = width], [biHeight = -height], no overflow in the
    negation), and the result is [Ok] exactly when [StretchDIBits], called
    with the buffer and the exact sizes, returns neither [GDI_ERROR] nor 0
    and [ValidateRect] succeeds; otherwise it panics. *)
Theorem present_exact_X13 (StretchDIBits : StretchDIBitsCall -> Z)
    (ValidateRect : Z -> bool) (GDI_ERROR : Z) (surface : Surface) (buf : list Pixel)
    (ext : Extent) :
  (width ext <= 2147483647)%N -> (height ext <= 2147483647)%N ->
  exists hdr, present_header ext = Some hdr /\
    biWidth hdr = Z.of_N (width ext) /\ biHeight hdr = - Z.of_N (height ext) /\
    (forall e, Surface_present StretchDIBits ValidateRect GDI_ERROR surface buf ext <> Some (Err e)) /\
    (let scan_lines :=
       StretchDIBits {| call_hdc := device_context surface;
                        dest_width := Z.of_N (width ext); dest_height := Z.of_N (height ext);
                        src_width := Z.of_N (width ext); src_height := Z.of_N (height ext);
                        bits := buf; bitmap_header := hdr |} in
     Surface_present StretchDIBits ValidateRect GDI_ERROR surface buf ext = Some (Ok tt) <->
     scan_lines <> GDI_ERROR /\ scan_lines <> 0 /\ ValidateRect (window surface) = true).
Proof.
  intros Hw Hh.
  assert (Ehdr : present_header ext =
            Some {| biSize := 40; biWidth := Z.of_N (width ext); biHeight := - Z.of_N (height ext);
                    biPlanes := 1; biBitCount := 32; biCompression := BI_BITFIELDS;
                    biSizeImage := 0; biXPelsPerMeter := 0; biYPelsPerMeter := 0;
                    biClrUsed := 0; biClrImportant := 0 |}).
  { unfold present_header. rewrite (usize_as_i32_small (height ext) Hh), checked_in by lia.
    cbn [mbind option_bind]. now rewrite (usize_as_i32_small (width ext) Hw). }
  eexists. split; [exact Ehdr|]. split; [reflexivity|]. split; [reflexivity|].
  unfold Surface_present. rewrite i32_max_value_usize_eq, Ehdr.
  replace (2147483647 <? width ext)%N with false by (symmetry; apply N.ltb_ge; lia).
  replace (2147483647 <? height ext)%N with false by (symmetry; apply N.ltb_ge; lia).
  rewrite (usize_as_i32_small (width ext) Hw), (usize_as_i32_small (height ext) Hh).
  cbv zeta. split.
  - intros e.
    repeat match goal with |- context [if ?cond then _ else _] => destruct cond end;
      discriminate.
  - match goal with |- context [StretchDIBits ?call] => set (n := StretchDIBits call) end.
    destruct (Z.eqb_spec n GDI_ERROR) as [E1|E1];
      [split; [discriminate | intros (H1 & _); contradiction]|].
    destruct (Z.eqb_spec n 0) as [E2|E2];
      [split; [discriminate | intros (_ & H2 & _); contradiction]|].
    destruct (ValidateRect (window surface)); split; auto; [discriminate | intros (_ & _ & ?); discriminate].
Qed.

(* ------------------------------------------------------------------ *)
(** ** The example program *)

(** X14: in the example, a redraw clears before drawing, so its result does
    not depend on the previous frame: two well-formed swap chains of the
    same extent give the same frame. *)
Theorem example_redraw_independent_X14 (sc1 sc2 : SwapChain) :
  wf sc1 -> wf sc2 -> extent sc1 = extent sc2 -> example_on_redraw sc1 = example_on_redraw sc2.
Proof.
  intros H1 H2 Ee. unfold example_on_redraw.
  assert (Ec : clear sc1 BLACK = clear sc2 BLACK).
  { unfold clear. rewrite Ee. f_equal. apply map_const_length. unfold wf in *. congruence. }
  now rewrite Ec.
Qed.




(* ------------------------------------------------------------------ *)
(** ** [is_point_inside] and the buffer index *)

(** X16: [is_point_inside] holds exactly for [0 <= x < width] and
    [0 <= y < height] (the [as usize] casts only happen after the sign
    checks); for such points the buffer index is [y * width + x], below
    [width * height], and distinct points get distinct indices. *)
Theorem pixel_index_X16 (sc : SwapChain) (p q : Vector2 Z) :
  (is_point_inside sc p = true <->
     0 <= x p < Z.of_N (width (extent sc)) /\ 0 <= y p < Z.of_N (height (extent sc))) /\
  (is_point_inside sc p = true ->
     pixel_index (extent sc) p = Z.to_nat (y p * Z.of_N (width (extent sc)) + x p) /\
     (pixel_index (extent sc) p < N.to_nat (width (extent sc) * height (extent sc)))%nat) /\
  (is_point_inside sc p = true -> is_point_inside sc q = true ->
     pixel_index (extent sc) p = pixel_index (extent sc) q -> p = q).
Proof.
  assert (Hiff : is_point_inside sc p = true <->
     0 <= x p < Z.of_N (width (extent sc)) /\ 0 <= y p < Z.of_N (height (extent sc))).
  { unfold is_point_inside, i32_as_usize. rewrite !andb_true_iff, !Z.leb_le, !N.ltb_lt.
    destruct (Z.ltb_spec (x p) 0), (Z.ltb_spec (y p) 0); lia. }
  split; [exact Hiff|]. split.
  - intros Hin. split; [|exact (pixel_index_bound sc p Hin)].
    apply Hiff in Hin. unfold pixel_index, i32_as_usize.
    destruct (Z.ltb_spec (x p) 0), (Z.ltb_spec (y p) 0); lia.
  - apply pixel_index_inj.
Qed.

(* ------------------------------------------------------------------ *)
(** ** Instances of the further properties at concrete inputs *)

Lemma hit_test_i32_no_overflow_X2_witness :
  triangle_within overflow_free_bound
    (Triangle2D_new (Vector2_new (-9000) (-9000)) (Vector2_new 9000 (-9000)) (Vector2_new 0 9000)) /\
  within overflow_free_bound (Vector2_new 1 1) /\
  area_i32 (Triangle2D_new (Vector2_new (-9000) (-9000)) (Vector2_new 9000 (-9000))
                           (Vector2_new 0 9000))
    = Some (area (Triangle2D_new (Vector2_new (-9000) (-9000)) (Vector2_new 9000 (-9000))
                                 (Vector2_new 0 9000))) /\
  hit_test_i32 (Triangle2D_new (Vector2_new (-9000) (-9000)) (Vector2_new 9000 (-9000))
                               (Vector2_new 0 9000)) (Vector2_new 1 1)
    = Some (hit_test (Triangle2D_new (Vector2_new (-9000) (-9000)) (Vector2_new 9000 (-9000))
                                     (Vector2_new 0 9000)) (Vector2_new 1 1)).
Proof.
  assert (Ht : triangle_within overflow_free_bound
    (Triangle2D_new (Vector2_new (-9000) (-9000)) (Vector2_new 9000 (-9000)) (Vector2_new 0 9000)))
    by (unfold triangle_within, within, overflow_free_bound; simpl; lia).
  assert (Hp : within overflow_free_bound (Vector2_new 1 1))
    by (unfold within, overflow_free_bound; simpl; lia).
  split; [exact Ht|]. split; [exact Hp|].
  exact (hit_test_i32_no_overflow_X2 _ _ Ht Hp).
Defined.

Lemma draw_rasterized_no_panic_X3_witness :
  wf (SwapChain_new size4) /\
  exists sc' s', draw_rasterized (constant_fragment example_color) identity_vertex_shader
                   (SwapChain_new size4) example_vertices tt = Some (sc', s').
Proof.
  split; [reflexivity|].
  apply (draw_rasterized_no_panic_X3 (constant_fragment example_color) identity_vertex_shader
           (SwapChain_new size4) example_vertices tt); [reflexivity|].
  intros vt [<-|[]].
  assert (E : pixel_triangle identity_vertex_shader (SwapChain_new size4) example_triangle
              = Triangle2D_new (Vector2_new 2 1) (Vector2_new 1 3) (Vector2_new 3 3))
    by (vm_compute; reflexivity).
  rewrite E. unfold triangle_within, within, overflow_free_bound; simpl; lia.
Defined.

Lemma draw_rasterized_untouched_X4_witness :
  let sc := SwapChain_new size4 in
  let sc' := {| extent := extent sc; buffer := <[5%nat := RED]> (<[0%nat := RED]> (buffer sc)) |} in
  draw_rasterized (counting_fragment RED) identity_vertex_shader sc [degenerate_triangle] 0%nat
    = Some (sc', 2%nat) /\
  is_point_inside sc (Vector2_new 0 3) = true /\
  pixel_at sc' (Vector2_new 0 3) = pixel_at sc (Vector2_new 0 3).
Proof.
  cbv zeta.
  assert (Hd : draw_rasterized (counting_fragment RED) identity_vertex_shader (SwapChain_new size4)
                 [degenerate_triangle] 0%nat
               = Some ({| extent := extent (SwapChain_new size4);
                          buffer := <[5%nat := RED]> (<[0%nat := RED]>
                                      (buffer (SwapChain_new size4))) |}, 2%nat))
    by (vm_compute; reflexivity).
  split; [exact Hd|]. split; [reflexivity|].
  apply (draw_rasterized_untouched_X4 (counting_fragment RED) identity_vertex_shader _ _
           [degenerate_triangle] 0%nat 2%nat (Vector2_new 0 3) Hd); [reflexivity|].
  intros vt [<-|[]] (_ & Hh & _). vm_compute in Hh. discriminate.
Defined.

Lemma draw_rasterized_fragment_calls_X6_witness :
  fragment_calls identity_vertex_shader (SwapChain_new size4)
    [degenerate_triangle; example_triangle] = 4%nat /\
  exists sc', draw_rasterized (counting_fragment RED) identity_vertex_shader (SwapChain_new size4)
                [degenerate_triangle; example_triangle] 0%nat
              = Some (sc', shader_steps (counting_fragment RED)
                             (fragment_calls identity_vertex_shader (SwapChain_new size4)
                                [degenerate_triangle; example_triangle]) 0%nat).
Proof.
  split; [vm_compute; reflexivity|].
  destruct (draw_rasterized (counting_fragment RED) identity_vertex_shader (SwapChain_new size4)
              [degenerate_triangle; example_triangle] 0%nat) as [[sc' n]|] eqn:Hd;
    [|vm_compute in Hd; discriminate].
  exists sc'.
  rewrite <- (draw_rasterized_fragment_calls_X6 (counting_fragment RED) identity_vertex_shader
                _ _ _ _ _ Hd).
  reflexivity.
Defined.

Lemma clear_last_wins_X8_witness :
  let sc := SwapChain_new size4 in
  let sc' := {| extent := extent sc; buffer := <[5%nat := RED]> (<[0%nat := RED]> (buffer sc)) |} in
  draw_rasterized (counting_fragment RED) identity_vertex_shader sc [degenerate_triangle] 0%nat
    = Some (sc', 2%nat) /\
  clear sc' BLACK = clear sc BLACK.
Proof.
  cbv zeta.
  assert (Hd : draw_rasterized (counting_fragment RED) identity_vertex_shader (SwapChain_new size4)
                 [degenerate_triangle] 0%nat
               = Some ({| extent := extent (SwapChain_new size4);
                          buffer := <[5%nat := RED]> (<[0%nat := RED]>
                                      (buffer (SwapChain_new size4))) |}, 2%nat))
    by (vm_compute; reflexivity).
  split; [exact Hd|].
  exact (proj2 clear_last_wins_X8 nat (counting_fragment RED) Q QF32 identity_vertex_shader
           _ _ _ _ _ BLACK Hd).
Defined.

Lemma clear_is_resize_X9_witness :
  wf (SwapChain_new size4) /\
  clear (SwapChain_new size4) RED
    = resize_with_clear_color (SwapChain_new size4) (extent_size (extent (SwapChain_new size4))) RED.
Proof.
  assert (Hwf : wf (SwapChain_new size4)) by reflexivity.
  split; [exact Hwf|]. exact (proj1 clear_is_resize_X9 _ RED Hwf).
Defined.

Lemma flat_triangle_no_fragments_X10_witness :
  rasterize_triangle (counting_fragment RED)
    (Triangle2D_new (Vector2_new 1 0) (Vector2_new 1 1) (Vector2_new 1 3)) (SwapChain_new size4, 0%nat)
  = Some (SwapChain_new size4, 0%nat).
Proof.
  apply flat_triangle_no_fragments_X10. left. split; reflexivity.
Defined.

Lemma present_exact_X13_witness :
  let ext := extent (SwapChain_new size4) in
  (width ext <= 2147483647)%N /\ (height ext <= 2147483647)%N /\
  exists hdr, present_header ext = Some hdr /\
    biWidth hdr = 4 /\ biHeight hdr = -4 /\
    (forall e, Surface_present (fun _ => 4) (fun _ => true) (-1)
                 {| window := 1; device_context := 2 |} (buffer (SwapChain_new size4)) ext
               <> Some (Err e)).
Proof.
  cbv zeta. split; [cbn; lia|]. split; [cbn; lia|].
  destruct (present_exact_X13 (fun _ => 4) (fun _ => true) (-1) {| window := 1; device_context := 2 |}
              (buffer (SwapChain_new size4)) (extent (SwapChain_new size4)))
    as (hdr & Eh & Ew & Ehh & Hne & _); [cbn; lia | cbn; lia |].
  exists hdr. split; [exact Eh|]. split; [exact Ew|]. split; [exact Ehh|]. exact Hne.
Defined.

Lemma example_redraw_independent_X14_witness :
  wf (SwapChain_new size4) /\ wf (clear (SwapChain_new size4) RED) /\
  example_on_redraw (SwapChain_new size4) = example_on_redraw (clear (SwapChain_new size4) RED).
Proof.
  assert (H1 : wf (SwapChain_new size4)) by reflexivity.
  assert (H2 : wf (clear (SwapChain_new size4) RED)) by reflexivity.
  split; [exact H1|]. split; [exact H2|].
  exact (example_redraw_independent_X14 _ _ H1 H2 eq_refl).
Defined.


Lemma pixel_index_X16_witness :
  is_point_inside (SwapChain_new size4) (Vector2_new 1 2) = true /\
  pixel_index (extent (SwapChain_new size4)) (Vector2_new 1 2) = Z.to_nat (2 * 4 + 1) /\
  (pixel_index (extent (SwapChain_new size4)) (Vector2_new 1%Z 2%Z) < 16)%nat.
Proof.
  assert (Hin : is_point_inside (SwapChain_new size4) (Vector2_new 1 2) = true) by reflexivity.
  split; [exact Hin|].
  exact (proj1 (proj2 (pixel_index_X16 (SwapChain_new size4) (Vector2_new 1 2) (Vector2_new 1 2)))
           Hin).
Defined.

Lemma triangle_vertex_order_X1_witness :
  triangle_within overflow_free_bound
    (Triangle2D_new (Vector2_new 2 1) (Vector2_new 1 3) (Vector2_new 3 3)) /\
  rasterize_triangle (counting_fragment RED)
    (swap_vertices (Triangle2D_new (Vector2_new 2 1) (Vector2_new 1 3) (Vector2_new 3 3)))
    (SwapChain_new size4, 0%nat)
  = rasterize_triangle (counting_fragment RED)
      (Triangle2D_new (Vector2_new 2 1) (Vector2_new 1 3) (Vector2_new 3 3))
      (SwapChain_new size4, 0%nat).
Proof.
  assert (Ht : triangle_within overflow_free_bound
                 (Triangle2D_new (Vector2_new 2 1) (Vector2_new 1 3) (Vector2_new 3 3)))
    by (unfold triangle_within, within, overflow_free_bound; simpl; lia).
  split; [exact Ht|].
  exact (proj2 (proj1 (proj2 triangle_vertex_order_X1) nat (counting_fragment RED) _
                  (SwapChain_new size4, 0%nat) Ht)).
Defined.

Lemma constant_shader_draw_X5_witness :
  let sc := SwapChain_new size4 in
  exists sc1,
    draw_rasterized (constant_fragment example_color) identity_vertex_shader sc
      [example_triangle] tt = Some (sc1, tt) /\
    pixel_at sc1 (Vector2_new 2 2) = Some example_color /\
    draw_rasterized (constant_fragment example_color) identity_vertex_shader sc
      [example_triangle; example_triangle] tt = Some (sc1, tt).
Proof.
  cbv zeta.
  destruct (draw_rasterized (constant_fragment example_color) identity_vertex_shader
              (SwapChain_new size4) [example_triangle] tt) as [[sc1 []]|] eqn:Hd1;
    [|vm_compute in Hd1; discriminate Hd1].
  destruct (draw_rasterized (constant_fragment example_color) identity_vertex_shader
              (SwapChain_new size4) [example_triangle; example_triangle] tt) as [[sc2 []]|] eqn:Hd2;
    [|vm_compute in Hd2; discriminate Hd2].
  pose proof (constant_shader_draw_X5 identity_vertex_shader example_color
                (SwapChain_new size4) sc1 sc2 [example_triangle]
                [example_triangle; example_triangle] Hd1) as [Hpix Heq].
  exists sc1. split; [reflexivity|]. split.
  - apply (proj1 (Hpix (Vector2_new 2 2) ltac:(vm_compute; reflexivity))).
    exists example_triangle. split; [now left|].
    split; [|split; vm_compute; reflexivity].
    apply In_candidates. vm_compute. repeat split; discriminate.
  - rewrite (Heq ltac:(vm_compute; reflexivity) Hd2); [reflexivity|].
    intros p _. split; intros (vt & Hv & Hc); exists vt; split; [|exact Hc| |exact Hc];
      simpl in *; tauto.
Defined.
